(** * nats.deno: the NatsConnection front end and the header codec

    A shallow embedding of [nats-base-client/nats.ts] (class
    [NatsConnection]) together with the collaborators it drives.  The
    methods of [NatsConnection] are translated line by line; the
    protocol handler, the request mux, the token generator and the
    header codec live in files that are not part of the sources at hand
    and are modelled from the specification, each such definition saying
    so in its documentation.

    Conventions.
    - A JavaScript string is represented by its UTF-8 bytes ([string]),
      so [TextEncoder.encode] is [list_byte_of_string].
    - A method that may throw returns an [Outcome]; a method that
      mutates [this] returns the new state next to its outcome.
    - Time is discrete: the clock of a [World] counts milliseconds and
      advances by the event [Tick]. *)

From Stdlib Require Import String Ascii List ZArith Lia Bool.
From Stdlib.Strings Require Import Byte.
From stdpp Require Import base option list gmap strings pretty.

Local Open Scope string_scope.

(** ** Errors *)

(** Modelled from the spec: the error kinds of [error.ts] (section 7,
    "stable identifiers"); the file itself is absent. *)
Inductive ErrorCode :=
| BAD_SUBJECT | BAD_HEADER | BAD_PAYLOAD
| CONNECTION_CLOSED | CONNECTION_DRAINING | CONNECTION_REFUSED
| CONNECTION_TIMEOUT | SERVER_OPTION_NA | AUTHORIZATION_VIOLATION
| PERMISSIONS_VIOLATION | STALE_CONNECTION | SLOW_CONSUMER
| TIMEOUT | MAX_PAYLOAD_EXCEEDED | PROTOCOL_ERROR | NO_RESPONDERS.

#[global] Instance ErrorCode_eq_dec : EqDecision ErrorCode.
Proof. solve_decision. Defined.

Record NatsError := { code : ErrorCode }.

#[global] Instance NatsError_eq_dec : EqDecision NatsError.
Proof. solve_decision. Defined.

(** [NatsError.errorForCode] *)
Definition errorForCode (c : ErrorCode) : NatsError := {| code := c |}.

(** The result of a call that either returns or throws. *)
Inductive Outcome (A : Type) :=
| Returned (a : A)
| Thrown (e : NatsError).
Arguments Returned {A} a.
Arguments Thrown {A} e.

(** ** JavaScript values reaching [publish] as [data: any] *)

(** Numbers are represented by their integer value (of a magnitude
    that prints in plain decimal, below 10^21), with [NaN] apart;
    arrays and objects are plain data. *)
#[warnings="-register-all"]
Inductive JsValue :=
| JUndefined
| JNull
| JBool (b : bool)
| JNumber (n : Z)
| JNaN
| JString (s : string)
| JUint8Array (bytes : list byte)
| JArray (items : list JsValue)
| JObject (fields : list (string * JsValue)).

(** [isUint8Array] of [util.ts] *)
Definition isUint8Array (v : JsValue) : bool :=
  match v with JUint8Array _ => true | _ => false end.

(** ECMAScript [ToBoolean]: what [data || ""] tests. *)
Definition truthy (v : JsValue) : bool :=
  match v with
  | JUndefined | JNull | JNaN => false
  | JBool b => b
  | JNumber n => negb (n =? 0)%Z
  | JString s => negb (String.length s =? 0)%nat
  | JUint8Array _ | JArray _ | JObject _ => true
  end.

(** [a || b] *)
Definition js_or (a b : JsValue) : JsValue := if truthy a then a else b.

Definition join_comma (l : list string) : string := String.concat "," l.

(** ECMAScript [ToString], as [TextEncoder.encode] applies it to its
    argument. *)
Fixpoint ToString (v : JsValue) : string :=
  match v with
  | JUndefined => "undefined"
  | JNull => "null"
  | JBool true => "true"
  | JBool false => "false"
  | JNumber n => pretty n
  | JNaN => "NaN"
  | JString s => s
  | JUint8Array bytes => join_comma (map (fun b => pretty (Byte.to_N b)) bytes)
  | JArray items =>
      join_comma
        (map (fun x => match x with
                       | JUndefined | JNull => ""
                       | _ => ToString x
                       end) items)
  | JObject _ => "[object Object]"
  end.

(** [new TextEncoder().encode(s)] on a string held as UTF-8. *)
Definition TextEncoder_encode (s : string) : list byte := list_byte_of_string s.

(** The host's [JSON.stringify]; the connection only calls it. *)
Class JsRuntime := { JSON_stringify : JsValue -> string }.

(** The token generator behind the module-level [nuid = new Nuid()]
    (nuid.ts): [nuid_next n] is the token handed out by the call of
    [nuid.next()] that follows [n] earlier ones. *)
Class Nuid := { nuid_next : nat -> string }.

(** ** Promises *)

Inductive Promise (A : Type) :=
| Pending
| Fulfilled (v : A)
| Rejected (e : NatsError).
Arguments Pending {A}.
Arguments Fulfilled {A} v.
Arguments Rejected {A} e.

(** Settling is single-shot: a settled promise ignores later attempts. *)
Definition resolve {A} (p : Promise A) (v : A) : Promise A :=
  match p with Pending => Fulfilled v | _ => p end.

Definition reject {A} (p : Promise A) (e : NatsError) : Promise A :=
  match p with Pending => Rejected e | _ => p end.

Definition is_pending {A} (p : Promise A) : bool :=
  match p with Pending => true | _ => false end.

(** [Promise.race([t, d])] observed right after one of the two may have
    settled: the settled one decides, [t] first. *)
Definition race {A} (t d : Promise A) : Promise A :=
  match t with Pending => d | _ => t end.

(** A promise object: its identity and its state. *)
Record PromiseObj (A : Type) := { promise_id : nat; promise_state : Promise A }.
Arguments promise_id {A} _.
Arguments promise_state {A} _.

(** ** Options, messages, subscriptions *)

(** [Payload] of [mod.ts]; the connection tests for [JSON] only. *)
Inductive Payload := STRING | JSON | BINARY.

#[global] Instance Payload_eq_dec : EqDecision Payload.
Proof. solve_decision. Defined.

Record ConnectionOptions := { payload : Payload }.

Record Msg := { msg_subject : string; msg_reply : string; msg_data : list byte }.

Record SubscriptionOptions :=
  { queue : option string; max : option nat; sub_timeout : option nat }.

Record SubscriptionImpl :=
  { sub_subject : string; sub_opts : SubscriptionOptions }.

(** What [protocol.publish(subject, data, reply)] is handed. *)
Record PubFrame :=
  { pub_subject : string; pub_data : list byte; pub_reply : string }.

(** ** The protocol handler (protocol.ts) *)

(** Modelled from the spec: the states of section 4.H a connected
    handler can be in. *)
Inductive ConnState := CONNECTED | DRAINING | CLOSED.

#[global] Instance ConnState_eq_dec : EqDecision ConnState.
Proof. solve_decision. Defined.

(** Modelled from the spec: the pending request of section 3 (class
    [Request] of protocol.ts): token, deadline and a single-shot result
    slot; [timer] is the promise that rejects with TIMEOUT at the
    deadline unless the request was cancelled first. *)
Record Request := {
  token : string;
  timeout : nat;
  deadline : nat;
  armed : bool;
  timer : Promise Msg;
  deferred : Promise Msg
}.

(** Modelled from the spec: the request mux of section 4.G; pending
    entries are stored under their token and point at the request
    object. *)
Record MuxSubscription := {
  baseInbox : string;
  reqs : gmap string nat
}.

(** Modelled from the spec: the part of [ProtocolHandler] a
    [NatsConnection] touches. *)
Record ProtocolHandler := {
  state : ConnState;
  ph_closed : PromiseObj (option NatsError);
  muxSubscriptions : MuxSubscription;
  outbound : list PubFrame;
  subscriptions : list SubscriptionImpl
}.

Definition set_state (ph : ProtocolHandler) (s : ConnState) : ProtocolHandler :=
  {| state := s; ph_closed := ph_closed ph;
     muxSubscriptions := muxSubscriptions ph;
     outbound := outbound ph; subscriptions := subscriptions ph |}.

Definition set_reqs (ph : ProtocolHandler) (m : gmap string nat) : ProtocolHandler :=
  {| state := state ph; ph_closed := ph_closed ph;
     muxSubscriptions :=
       {| baseInbox := baseInbox (muxSubscriptions ph); reqs := m |};
     outbound := outbound ph; subscriptions := subscriptions ph |}.

(** Modelled from the spec: [ProtocolHandler.isClosed]. *)
Definition ProtocolHandler_isClosed (ph : ProtocolHandler) : bool :=
  bool_decide (state ph = CLOSED).

(** Modelled from the spec: [ProtocolHandler.publish] "enqueues
    synchronously" (4.E); a draining handler has stopped "accepting new
    publishes/subscribes" and CLOSED is terminal (4.H). *)
Definition ProtocolHandler_publish (ph : ProtocolHandler)
    (subject : string) (data : list byte) (reply : string)
  : ProtocolHandler * Outcome unit :=
  match state ph with
  | CLOSED => (ph, Thrown (errorForCode CONNECTION_CLOSED))
  | DRAINING => (ph, Thrown (errorForCode CONNECTION_DRAINING))
  | CONNECTED =>
      ({| state := state ph; ph_closed := ph_closed ph;
          muxSubscriptions := muxSubscriptions ph;
          outbound := outbound ph ++
            [{| pub_subject := subject; pub_data := data; pub_reply := reply |}];
          subscriptions := subscriptions ph |},
       Returned tt)
  end.

(** Modelled from the spec: [ProtocolHandler.subscribe] installs the
    record in the registry (4.F). *)
Definition ProtocolHandler_subscribe (ph : ProtocolHandler) (sub : SubscriptionImpl)
  : ProtocolHandler :=
  {| state := state ph; ph_closed := ph_closed ph;
     muxSubscriptions := muxSubscriptions ph;
     outbound := outbound ph;
     subscriptions := subscriptions ph ++ [sub] |}.

(** Modelled from the spec: [ProtocolHandler.request] "stores a pending
    entry under the token" (4.G); [h] is the request object. *)
Definition ProtocolHandler_request (ph : ProtocolHandler) (tok : string) (h : nat)
  : ProtocolHandler :=
  set_reqs ph (<[tok := h]> (reqs (muxSubscriptions ph))).

(** Modelled from the spec: entering CLOSED "resolves the closed()
    future exactly once, with an error if a fatal condition triggered
    it" (4.H). *)
Definition ProtocolHandler_shutdown (ph : ProtocolHandler) (err : option NatsError)
  : ProtocolHandler :=
  match state ph with
  | CLOSED => ph
  | _ =>
      {| state := CLOSED;
         ph_closed :=
           {| promise_id := promise_id (ph_closed ph);
              promise_state := resolve (promise_state (ph_closed ph)) err |};
         muxSubscriptions := muxSubscriptions ph;
         outbound := outbound ph; subscriptions := subscriptions ph |}
  end.

(** Modelled from the spec: [ProtocolHandler.close]. *)
Definition ProtocolHandler_close (ph : ProtocolHandler) : ProtocolHandler :=
  ProtocolHandler_shutdown ph None.

(** Modelled from the spec: [ProtocolHandler.drain] starts the
    CONNECTED -> DRAINING transition (4.H). *)
Definition ProtocolHandler_drain (ph : ProtocolHandler) : ProtocolHandler :=
  match state ph with
  | CONNECTED => set_state ph DRAINING
  | _ => ph
  end.

(** Modelled from the spec: the end of a drain, "await all sinks to
    drain, then CLOSED" (4.H). *)
Definition ProtocolHandler_drained (ph : ProtocolHandler) : ProtocolHandler :=
  match state ph with
  | DRAINING => ProtocolHandler_shutdown ph None
  | _ => ph
  end.

(** ** NatsConnection (nats.ts) *)

Record NatsConnection := {
  options : ConnectionOptions;
  protocol : ProtocolHandler;
  draining : bool
}.

Definition set_protocol (nc : NatsConnection) (ph : ProtocolHandler) : NatsConnection :=
  {| options := options nc; protocol := ph; draining := draining nc |}.

(** [isClosed(): boolean] *)
Definition isClosed (nc : NatsConnection) : bool :=
  ProtocolHandler_isClosed (protocol nc).

(** [isDraining(): boolean] *)
Definition isDraining (nc : NatsConnection) : bool := draining nc.

(** [closed(): Promise<void | Error>] returns the handler's promise. *)
Definition closed (nc : NatsConnection) : PromiseObj (option NatsError) :=
  ph_closed (protocol nc).

(** [async close()] *)
Definition close (nc : NatsConnection) : NatsConnection :=
  set_protocol nc (ProtocolHandler_close (protocol nc)).

Section Connection.
Context `{JsRuntime} `{Nuid}.

(** The payload processing of [publish] (lines 87-98): the bytes
    handed to the protocol layer. *)
Definition payload_bytes (opts : ConnectionOptions) (data : JsValue) : list byte :=
  match data with
  | JUint8Array bytes => bytes
  | _ =>
      if bool_decide (payload opts <> JSON)
      then TextEncoder_encode (ToString (js_or data (JString "")))
      else
        let data := match data with JUndefined => JNull | _ => data end in
        TextEncoder_encode (JSON_stringify data)
  end.

(** [publish(subject, data = undefined, reply = ""): void] *)
Definition publish (nc : NatsConnection) (subject : option string)
    (data : JsValue) (reply : option string)
  : NatsConnection * Outcome unit :=
  let subject := default "" subject in
  if (String.length subject =? 0)%nat
  then (nc, Thrown (errorForCode BAD_SUBJECT))
  else
    let '(ph, res) :=
      ProtocolHandler_publish (protocol nc) subject
        (payload_bytes (options nc) data) (default "" reply) in
    (set_protocol nc ph, res).

(** [subscribe(subject, opts = {}): Subscription] *)
Definition subscribe (nc : NatsConnection) (subject : option string)
    (opts : SubscriptionOptions)
  : NatsConnection * Outcome SubscriptionImpl :=
  if isClosed nc then (nc, Thrown (errorForCode CONNECTION_CLOSED))
  else if isDraining nc then (nc, Thrown (errorForCode CONNECTION_DRAINING))
  else
    let subject := default "" subject in
    if (String.length subject =? 0)%nat
    then (nc, Thrown (errorForCode BAD_SUBJECT))
    else
      let sub := {| sub_subject := subject; sub_opts := opts |} in
      (set_protocol nc (ProtocolHandler_subscribe (protocol nc) sub),
       Returned sub).

(** [drain(): Promise<void>]; the promise is given by its state at
    return. *)
Definition drain (nc : NatsConnection) : NatsConnection * Promise unit :=
  if isClosed nc then (nc, Rejected (errorForCode CONNECTION_CLOSED))
  else if isDraining nc then (nc, Rejected (errorForCode CONNECTION_DRAINING))
  else
    let nc := {| options := options nc; protocol := protocol nc;
                 draining := true |} in
    (set_protocol nc (ProtocolHandler_drain (protocol nc)), Pending).

(** *** Requests in flight *)

(** [RequestOptions] as [request] fills it. *)
Record RequestOptions := { opt_timeout : nat }.

(** A request in flight: the [Request] object [r] of [request] and,
    once built, the promise [p = Promise.race([r.timer, r.deferred])]
    that [request] returns. *)
Record Call := { req : Request; raced : option (Promise Msg) }.

(** What surrounds a connection: the module-level token generator
    (the number of tokens it has handed out since the connection was
    made), the clock in milliseconds, and the request objects alive on
    the heap, a request being named by its index. *)
Record World := {
  conn : NatsConnection;
  nuid : nat;
  now : nat;
  calls : list Call
}.

Definition set_conn (w : World) (nc : NatsConnection) : World :=
  {| conn := nc; nuid := nuid w; now := now w; calls := calls w |}.

Definition update_call (w : World) (h : nat) (f : Call -> Call) : World :=
  {| conn := conn w; nuid := nuid w; now := now w;
     calls := alter f h (calls w) |}.

Definition mux_reqs (w : World) : gmap string nat :=
  reqs (muxSubscriptions (protocol (conn w))).

Definition mux_delete (w : World) (tok : string) : World :=
  set_conn w
    (set_protocol (conn w)
       (set_reqs (protocol (conn w)) (delete tok (mux_reqs w)))).

(** The promise of a call as an observer sees it. *)
Definition call_promise (w : World) (h : nat) : Promise Msg :=
  match calls w !! h with
  | Some c => default Pending (raced c)
  | None => Pending
  end.

(** [r.token] of the request object [h]. *)
Definition call_token (w : World) (h : nat) : string :=
  match calls w !! h with
  | Some c => token (req c)
  | None => ""
  end.

Definition disarm (rq : Request) : Request :=
  {| token := token rq; timeout := timeout rq; deadline := deadline rq;
     armed := false; timer := timer rq; deferred := deferred rq |}.

(** Modelled from the spec: [new Request(mux, opts)] allocates a token
    and arms the timer (4.G); the deadline is [opts.timeout]
    milliseconds from now. *)
Definition new_Request (w : World) (opts : RequestOptions) : World * nat :=
  let rq := {| token := nuid_next (nuid w);
               timeout := opt_timeout opts;
               deadline := now w + opt_timeout opts;
               armed := true; timer := Pending; deferred := Pending |} in
  ({| conn := conn w; nuid := S (nuid w); now := now w;
      calls := calls w ++ [{| req := rq; raced := None |}] |},
   length (calls w)).

(** Modelled from the spec: [Request.cancel], "cancellation removes
    the entry without resolving" (4.G), and stops the timer. *)
Definition Request_cancel (w : World) (h : nat) : World :=
  match calls w !! h with
  | Some c =>
      update_call (mux_delete w (token (req c))) h
        (fun c => {| req := disarm (req c); raced := raced c |})
  | None => w
  end.

(** The reactions [request] attaches (lines 155-158): the race
    settles with the first of [r.timer] and [r.deferred], and a
    rejection of [p] runs [r.cancel()]. *)
Definition react (w : World) (h : nat) : World :=
  match calls w !! h with
  | Some c =>
      match raced c with
      | Some Pending =>
          let p := race (timer (req c)) (deferred (req c)) in
          let w := update_call w h
                     (fun c => {| req := req c; raced := Some p |}) in
          match p with
          | Rejected _ => Request_cancel w h
          | _ => w
          end
      | _ => w
      end
  | None => w
  end.

(** Modelled from the spec: the mux handler "resolves the pending
    entry (single-shot)" and the entry is "removed on first matching
    reply" (3, 4.G); a status reply becomes an error result. *)
Definition Request_resolver (w : World) (h : nat) (res : Msg + NatsError) : World :=
  match calls w !! h with
  | Some c =>
      update_call (mux_delete w (token (req c))) h
        (fun c =>
           {| req :=
                {| token := token (req c); timeout := timeout (req c);
                   deadline := deadline (req c); armed := false;
                   timer := timer (req c);
                   deferred :=
                     match res with
                     | inl m => resolve (deferred (req c)) m
                     | inr e => reject (deferred (req c)) e
                     end |};
              raced := raced c |})
  | None => w
  end.

(** Modelled from the spec: dispatch of a message that arrived on
    [<base-inbox><token>]; an unknown token is discarded (4.G). *)
Definition MuxSubscription_dispatch (w : World) (tok : string)
    (res : Msg + NatsError) : World :=
  match mux_reqs w !! tok with
  | Some h => react (Request_resolver w h res) h
  | None => w
  end.

(** Modelled from the spec: the timer of request [h] fires once its
    deadline is reached, "timeout rejects with TIMEOUT" (4.G). *)
Definition fire_timer (w : World) (h : nat) : World :=
  match calls w !! h with
  | Some c =>
      if armed (req c) && is_pending (timer (req c))
         && (deadline (req c) <=? now w)%nat
      then
        react
          (update_call w h
             (fun c =>
                {| req :=
                     {| token := token (req c); timeout := timeout (req c);
                        deadline := deadline (req c); armed := false;
                        timer := Rejected (errorForCode TIMEOUT);
                        deferred := deferred (req c) |};
                   raced := raced c |})) h
      else w
  | None => w
  end.

(** One millisecond passes and the timers that are due run, in the
    order the requests were made. *)
Definition tick (w : World) : World :=
  let w := {| conn := conn w; nuid := nuid w; now := S (now w);
              calls := calls w |} in
  foldl fire_timer w (seq 0 (length (calls w))).

(** What [request] returns: [Promise.reject(err)] or the race of call
    [h]. *)
Inductive RequestPromise :=
| Promise_reject (e : NatsError)
| Promise_race (h : nat).

Definition promise_now (w : World) (rp : RequestPromise) : Promise Msg :=
  match rp with
  | Promise_reject e => Rejected e
  | Promise_race h => call_promise w h
  end.

(** [request(subject, timeoutMillis = 1000, data = undefined):
    Promise<Msg>]; [None] stands for an omitted argument. *)
Definition request (w : World) (subject : option string)
    (timeoutMillis : option nat) (data : JsValue)
  : World * Outcome RequestPromise :=
  if isClosed (conn w)
  then (w, Returned (Promise_reject (errorForCode CONNECTION_CLOSED)))
  else if isDraining (conn w)
  then (w, Returned (Promise_reject (errorForCode CONNECTION_DRAINING)))
  else
    let subject := default "" subject in
    if (String.length subject =? 0)%nat
    then (w, Returned (Promise_reject (errorForCode BAD_SUBJECT)))
    else
      let opts := {| opt_timeout := default 1000 timeoutMillis |} in
      let '(w, h) := new_Request w opts in
      let tok := call_token w h in
      let w := set_conn w
                 (set_protocol (conn w)
                    (ProtocolHandler_request (protocol (conn w)) tok h)) in
      let '(nc, res) :=
        publish (conn w) (Some subject) data
          (Some (baseInbox (muxSubscriptions (protocol (conn w))) ++ tok)) in
      let w := set_conn w nc in
      match res with
      | Thrown e => (w, Thrown e)
      | Returned _ =>
          (update_call w h
             (fun c =>
                {| req := req c;
                   raced := Some (race (timer (req c)) (deferred (req c))) |}),
           Returned (Promise_race h))
      end.

(** *** Events *)

(** What can happen to a live connection: a call of the user, a
    message or a status reply for an inbox token reaching the mux,
    the passing of a millisecond, the end of a drain, a fatal error. *)
Inductive Event :=
| Call_publish (subject : option string) (data : JsValue) (reply : option string)
| Call_subscribe (subject : option string) (opts : SubscriptionOptions)
| Call_request (subject : option string) (timeoutMillis : option nat)
    (data : JsValue)
| Call_drain
| Call_close
| Reply (tok : string) (m : Msg)
| NoResponders (tok : string)
| Tick
| Drained
| Fatal (e : NatsError).

Definition step (w : World) (ev : Event) : World :=
  match ev with
  | Call_publish subject data reply =>
      set_conn w (fst (publish (conn w) subject data reply))
  | Call_subscribe subject opts =>
      set_conn w (fst (subscribe (conn w) subject opts))
  | Call_request subject timeoutMillis data =>
      fst (request w subject timeoutMillis data)
  | Call_drain => set_conn w (fst (drain (conn w)))
  | Call_close => set_conn w (close (conn w))
  | Reply tok m => MuxSubscription_dispatch w tok (inl m)
  | NoResponders tok =>
      MuxSubscription_dispatch w tok (inr (errorForCode NO_RESPONDERS))
  | Tick => tick w
  | Drained =>
      set_conn w
        (set_protocol (conn w) (ProtocolHandler_drained (protocol (conn w))))
  | Fatal e =>
      set_conn w
        (set_protocol (conn w)
           (ProtocolHandler_shutdown (protocol (conn w)) (Some e)))
  end.

Definition run (w : World) (evs : list Event) : World := foldl step w evs.

(** The world in which the promise of [NatsConnection.connect]
    resolves: a connected handler, nothing pending. *)
Definition connected (opts : ConnectionOptions) (inbox : string) (t0 : nat)
  : World :=
  {| conn :=
       {| options := opts;
          protocol :=
            {| state := CONNECTED;
               ph_closed := {| promise_id := 0; promise_state := Pending |};
               muxSubscriptions := {| baseInbox := inbox; reqs := ∅ |};
               outbound := []; subscriptions := [] |};
          draining := false |};
     nuid := 0; now := t0; calls := [] |}.

Inductive reachable : World -> Prop :=
| reachable_connected opts inbox t0 : reachable (connected opts inbox t0)
| reachable_step w ev : reachable w -> reachable (step w ev).
End Connection.

(** ** Status listeners (nats.ts, [listeners], [connect], [status]) *)

Section StatusBus.
(** [Status] of [mod.ts], whatever it holds. *)
Variable Status : Type.

(** Modelled from the spec: a [QueuedIterator<Status>]
    (queued_iterator.ts), one of the "per-consumer" queues "fed by the
    handler" (5), kept as the values pushed to it so far, oldest
    first; what the consumer has taken out is not modelled. *)
Definition QueuedIterator : Type := list Status.

(** [l.push(s)] *)
Definition push (l : QueuedIterator) (s : Status) : QueuedIterator :=
  (l ++ [s])%list.

(** [status(): AsyncIterable<Status>] on the field [listeners]: a new
    iterator is pushed to the list and returned, named here by its
    place in the list. *)
Definition status (listeners : list QueuedIterator)
  : list QueuedIterator * nat :=
  ((listeners ++ [[]])%list, length listeners).

(** The body of the loop [connect] starts over [ph.status()] (lines
    60-64): a status is pushed to every listener. *)
Definition broadcast (listeners : list QueuedIterator) (s : Status)
  : list QueuedIterator :=
  map (fun l => push l s) listeners.

(** What happens to the listeners: a call of [status()], or a status
    coming out of the protocol handler. *)
Inductive BusEvent :=
| Call_status
| Emit (s : Status).

Definition bus_step (listeners : list QueuedIterator) (ev : BusEvent)
  : list QueuedIterator :=
  match ev with
  | Call_status => fst (status listeners)
  | Emit s => broadcast listeners s
  end.

Definition bus_run (listeners : list QueuedIterator) (evs : list BusEvent)
  : list QueuedIterator :=
  foldl bus_step listeners evs.

(** The statuses that come out of the handler during [evs]. *)
Fixpoint emitted (evs : list BusEvent) : list Status :=
  match evs with
  | [] => []
  | Emit s :: evs' => s :: emitted evs'
  | Call_status :: evs' => emitted evs'
  end.

(** The calls of [status()] during [evs]. *)
Fixpoint registrations (evs : list BusEvent) : nat :=
  match evs with
  | [] => 0
  | Call_status :: evs' => S (registrations evs')
  | Emit _ :: evs' => registrations evs'
  end.
End StatusBus.

Arguments Call_status {Status}.
Arguments Emit {Status} s.
Arguments push {Status} l s.
Arguments status {Status} listeners.
Arguments broadcast {Status} listeners s.
Arguments bus_step {Status} listeners ev.
Arguments bus_run {Status} listeners evs.
Arguments emitted {Status} evs.
Arguments registrations {Status} evs.

(** ** The header codec (headers.ts) *)

Module NatsHeaders.

(** Modelled from the spec: the header map of [headers.ts] (class
    [NatsHeaders]; the file is absent, its test is at hand): keys in
    insertion order, each with the values appended under it. *)
Definition t := list (string * list string).

Definition CR : ascii := "013".
Definition LF : ascii := "010".
Definition CRLF : string := String CR (String LF "").

(** Modelled from the spec: the preamble of a header block (4.B). *)
Definition HEADER : string := "NATS/1.0".

Fixpoint all_chars (f : ascii -> bool) (s : string) : bool :=
  match s with
  | EmptyString => true
  | String c s' => f c && all_chars f s'
  end.

Definition is_control (c : ascii) : bool :=
  (nat_of_ascii c <? 32)%nat || (nat_of_ascii c =? 127)%nat.

(** HT, LF, VT, FF, CR and space. *)
Definition is_whitespace (c : ascii) : bool :=
  ((9 <=? nat_of_ascii c)%nat && (nat_of_ascii c <=? 13)%nat)
  || (nat_of_ascii c =? 32)%nat.

(** Modelled from the spec: "keys MUST NOT contain [:], whitespace, or
    control bytes" (4.B). *)
Definition key_char (c : ascii) : bool :=
  negb (Ascii.eqb c ":" || is_whitespace c || is_control c).

(** Modelled from the spec: "values MUST NOT contain CR or LF" (4.B). *)
Definition value_char (c : ascii) : bool :=
  negb (Ascii.eqb c CR || Ascii.eqb c LF).

(** The characters other than [x]. *)
Definition not_char (x : ascii) (c : ascii) : bool := negb (Ascii.eqb c x).

Definition validKey (k : string) : bool := all_chars key_char k.
Definition validValue (v : string) : bool := all_chars value_char v.

Definition is_lower (c : ascii) : bool :=
  (97 <=? nat_of_ascii c)%nat && (nat_of_ascii c <=? 122)%nat.
Definition is_upper (c : ascii) : bool :=
  (65 <=? nat_of_ascii c)%nat && (nat_of_ascii c <=? 90)%nat.
Definition to_upper (c : ascii) : ascii :=
  if is_lower c then ascii_of_nat (nat_of_ascii c - 32) else c.
Definition to_lower (c : ascii) : ascii :=
  if is_upper c then ascii_of_nat (nat_of_ascii c + 32) else c.

(** [upper] says whether the next character starts a segment. *)
Fixpoint title_case (upper : bool) (s : string) : string :=
  match s with
  | EmptyString => EmptyString
  | String c s' =>
      String (if upper then to_upper c else to_lower c)
        (title_case (Ascii.eqb c "-") s')
  end.

(** Modelled from the spec: "header keys are canonicalized (ASCII
    title-case per hyphen segment)" (4.B); the test expects ["Foo"]
    for ["foo"] and ["Foo-Bar"] for ["foo-bar"]. *)
Definition canonicalMIMEHeaderKey (k : string) : string := title_case true k.

(** Adds [v] to the values stored under [k], a new key going last. *)
Fixpoint add_value (h : t) (k v : string) : t :=
  match h with
  | [] => [(k, [v])]
  | (k', vs) :: h' =>
      if String.eqb k' k then (k', (vs ++ [v])%list) :: h'
      else (k', vs) :: add_value h' k v
  end.

(** Replaces the values stored under [k] by [v] alone. *)
Fixpoint set_value (h : t) (k v : string) : t :=
  match h with
  | [] => [(k, [v])]
  | (k', vs) :: h' =>
      if String.eqb k' k then (k', [v]) :: h'
      else (k', vs) :: set_value h' k v
  end.

Fixpoint find_values (h : t) (k : string) : list string :=
  match h with
  | [] => []
  | (k', vs) :: h' => if String.eqb k' k then vs else find_values h' k
  end.

(** Modelled from the spec: "the codec surfaces invalid keys/values as
    a validation error" (4.B), BAD_HEADER by scenario 6. *)
Definition append (h : t) (k v : string) : Outcome t :=
  if validKey k && validValue v
  then Returned (add_value h (canonicalMIMEHeaderKey k) v)
  else Thrown (errorForCode BAD_HEADER).

(** Modelled from the spec: [set], validated like [append]. *)
Definition set (h : t) (k v : string) : Outcome t :=
  if validKey k && validValue v
  then Returned (set_value h (canonicalMIMEHeaderKey k) v)
  else Thrown (errorForCode BAD_HEADER).

(** Modelled from the spec: lookups go through the canonical key. *)
Definition values (h : t) (k : string) : list string :=
  find_values h (canonicalMIMEHeaderKey k).

Definition has (h : t) (k : string) : bool :=
  negb (Nat.eqb (length (values h k)) 0).

(** The key and value pairs of a map, in the order [encode] writes
    them. *)
Definition pairs (h : t) : list (string * string) :=
  flat_map (fun '(k, vs) => map (fun v => (k, v)) vs) h.

Definition header_line (kv : string * string) : string :=
  fst kv ++ ": " ++ snd kv.

Definition line (kv : string * string) : string := header_line kv ++ CRLF.

(** Modelled from the spec: a header block is the preamble
    [NATS/1.0\r\n], the lines [Key: Value\r\n] and a terminating
    blank line (4.B). *)
Fixpoint write_lines (kvs : list (string * string)) : string :=
  match kvs with
  | [] => EmptyString
  | kv :: kvs' => line kv ++ write_lines kvs'
  end.

Definition toString (h : t) : string :=
  HEADER ++ CRLF ++ write_lines (pairs h) ++ CRLF.

Definition encode (h : t) : list byte := TextEncoder_encode (toString h).

(** [s.split("\r\n")] *)
Fixpoint split_crlf (s : string) : list string :=
  match s with
  | EmptyString => [EmptyString]
  | String c s' =>
      let continue :=
        match split_crlf s' with
        | l :: ls => String c l :: ls
        | [] => [String c EmptyString]
        end in
      if Ascii.eqb c CR then
        match s' with
        | String c' s'' =>
            if Ascii.eqb c' LF then EmptyString :: split_crlf s''
            else continue
        | EmptyString => continue
        end
      else continue
  end.

(** Splits a line at its first colon. *)
Fixpoint break_colon (s : string) : option (string * string) :=
  match s with
  | EmptyString => None
  | String c s' =>
      if Ascii.eqb c ":" then Some (EmptyString, s')
      else
        match break_colon s' with
        | Some (k, v) => Some (String c k, v)
        | None => None
        end
  end.

(** Drops the space [encode] writes after the colon. *)
Definition strip_space (s : string) : string :=
  match s with
  | String c s' => if Ascii.eqb c " " then s' else s
  | EmptyString => s
  end.

(** Reads [Key: Value] lines up to the terminating blank line. *)
Fixpoint parse_lines (lines : list string) (h : t) : Outcome t :=
  match lines with
  | [] => Returned h
  | l :: rest =>
      if String.eqb l "" then Returned h
      else
        match break_colon l with
        | None => Thrown (errorForCode BAD_HEADER)
        | Some (k, v) =>
            match append h k (strip_space v) with
            | Returned h' => parse_lines rest h'
            | Thrown e => Thrown e
            end
        end
  end.

(** Modelled from the spec: [decode] reads a header block back; a
    block that does not start with the plain preamble (an inline
    status line, 4.B) is outside this model and refused. *)
Definition decode (a : list byte) : Outcome t :=
  match split_crlf (string_of_list_byte a) with
  | first :: rest =>
      if String.eqb first HEADER then parse_lines rest []
      else Thrown (errorForCode BAD_HEADER)
  | [] => Thrown (errorForCode BAD_HEADER)
  end.

(** A map as the codec sees it after canonicalization of its keys:
    every value re-entered under its canonical key. *)
Definition canonicalize (h : t) : t :=
  foldl (fun acc kv => add_value acc (canonicalMIMEHeaderKey (fst kv)) (snd kv))
    [] (pairs h).

(** The valid header maps: every key and every value passes the
    checks of [set]. *)
Definition valid (h : t) : Prop :=
  Forall (fun kv => validKey (fst kv) = true /\ validValue (snd kv) = true)
    (pairs h).

(** The maps the interface builds: canonical keys, each once, none
    without a value. *)
Definition normal (h : t) : Prop :=
  NoDup (map fst h)
  /\ Forall (fun e => canonicalMIMEHeaderKey (fst e) = fst e /\ snd e <> []) h.

(** Modelled from the spec: [size], the number of values held; the
    test counts three after three [append]s under two keys. *)
Definition size (h : t) : nat := length (pairs h).

Fixpoint remove_key (h : t) (k : string) : t :=
  match h with
  | [] => []
  | (k', vs) :: h' =>
      if String.eqb k' k then remove_key h' k else (k', vs) :: remove_key h' k
  end.

(** Modelled from the spec: [delete] drops the entry of a key, found
    like every lookup through the canonical key. *)
Definition delete (h : t) (k : string) : t :=
  remove_key h (canonicalMIMEHeaderKey k).

(** The maps that can be built through the interface, starting from
    [new NatsHeaders()]. *)
Inductive built : t -> Prop :=
| built_new : built []
| built_append h k v h' : built h -> append h k v = Returned h' -> built h'
| built_set h k v h' : built h -> set h k v = Returned h' -> built h'
| built_delete h k : built h -> built (delete h k).

(** A key with its ASCII letters in lower case. *)
Fixpoint lower (s : string) : string :=
  match s with
  | EmptyString => EmptyString
  | String c s' => String (to_lower c) (lower s')
  end.

End NatsHeaders.

(** ** A concrete host, for closed examples *)

Definition DQUOTE : ascii := ascii_of_nat 34.
Definition BACKSLASH : ascii := ascii_of_nat 92.

Definition hex_digit (n : nat) : ascii :=
  nth n (list_ascii_of_string "0123456789abcdef") "0"%char.

(** The escapes [JSON.stringify] writes inside a string literal. *)
Definition json_escape (c : ascii) : string :=
  let n := nat_of_ascii c in
  if (n =? 34)%nat then String BACKSLASH (String DQUOTE "")
  else if (n =? 92)%nat then String BACKSLASH (String BACKSLASH "")
  else if (n =? 8)%nat then String BACKSLASH "b"
  else if (n =? 9)%nat then String BACKSLASH "t"
  else if (n =? 10)%nat then String BACKSLASH "n"
  else if (n =? 12)%nat then String BACKSLASH "f"
  else if (n =? 13)%nat then String BACKSLASH "r"
  else if (n <? 32)%nat
       then String BACKSLASH
              ("u00" ++ String (hex_digit (n / 16)) (String (hex_digit (n mod 16)) ""))
  else String c "".

Fixpoint json_quote_chars (s : string) : string :=
  match s with
  | EmptyString => EmptyString
  | String c s' => json_escape c ++ json_quote_chars s'
  end.

Definition json_quote (s : string) : string :=
  String DQUOTE (json_quote_chars s ++ String DQUOTE "").

(** [JSON.stringify] on plain data: inside an array [undefined] and
    [NaN] read [null], a property holding [undefined] is left out. *)
Fixpoint ecma_stringify (v : JsValue) : string :=
  match v with
  | JUndefined | JNull | JNaN => "null"
  | JBool true => "true"
  | JBool false => "false"
  | JNumber n => pretty n
  | JString s => json_quote s
  | JUint8Array bytes =>
      "{" ++ join_comma
               (imap (fun i b => json_quote (pretty i) ++ ":" ++ pretty (Byte.to_N b))
                  bytes) ++ "}"
  | JArray items => "[" ++ join_comma (map ecma_stringify items) ++ "]"
  | JObject fields =>
      "{" ++ join_comma
               (omap (fun kv =>
                        match kv with
                        | (_, JUndefined) => None
                        | (k, x) => Some (json_quote k ++ ":" ++ ecma_stringify x)
                        end) fields) ++ "}"
  end.

Definition ecma_runtime : JsRuntime := {| JSON_stringify := ecma_stringify |}.

(** A generator that never repeats itself: a decimal counter. *)
Definition counter_nuid : Nuid := {| nuid_next := pretty |}.

(** A connection in string mode, as [connect] delivers it. *)
Definition sample_options : ConnectionOptions := {| payload := STRING |}.
Definition sample_world : World := connected sample_options "_INBOX.4xJ2." 0.
Definition no_options : SubscriptionOptions :=
  {| queue := None; max := None; sub_timeout := None |}.

(** The header map of the test "msgheaders - basics". *)
Definition sample_headers : NatsHeaders.t :=
  [("Foo", ["bar"; "bam"]); ("Foo-Bar", ["baz"])].

(** ** Reference behaviour and invariants *)

(** What the claims about closing and draining read off a world. *)
Definition view (w : World)
  : ConnState * bool * PromiseObj (option NatsError) :=
  (state (protocol (conn w)), draining (conn w), closed (conn w)).

(** The flag of the connection and the state of its handler agree, and
    the [closed()] promise is settled exactly in CLOSED. *)
Definition ConnInv (v : ConnState * bool * PromiseObj (option NatsError)) : Prop :=
  let '(st, dr, cl) := v in
  (dr = true -> st <> CONNECTED)
  /\ (st = DRAINING -> dr = true)
  /\ (st = CLOSED -> exists r, promise_state cl = Fulfilled r)
  /\ (st <> CLOSED -> promise_state cl = Pending).

Section Reference.
Context `{JsRuntime} `{Nuid}.

(** The payload conversion as the documentation words it: bytes pass
    through; in JSON mode [JSON.stringify] with [undefined] read as
    [null]; otherwise a coercion to string in which [undefined],
    [null] and the empty string give the empty string. *)
Definition documented_payload_bytes (opts : ConnectionOptions) (data : JsValue)
  : list byte :=
  match data with
  | JUint8Array bytes => bytes
  | _ =>
      match payload opts with
      | JSON =>
          TextEncoder_encode
            (JSON_stringify (match data with JUndefined => JNull | _ => data end))
      | _ =>
          TextEncoder_encode
            (match data with
             | JUndefined | JNull => ""
             | _ => ToString data
             end)
      end
  end.

(** [publish] hands [bytes] to the protocol layer. *)
Definition hands_over (nc : NatsConnection) (subject : string)
    (data : JsValue) (reply : option string) (bytes : list byte) : Prop :=
  publish nc (Some subject) data reply =
    (set_protocol nc
       (fst (ProtocolHandler_publish (protocol nc) subject bytes (default "" reply))),
     snd (ProtocolHandler_publish (protocol nc) subject bytes (default "" reply))).

(** A live request is pending, with its entry in the mux; a settled
    one has left the mux; one whose publish threw never got a
    promise. *)
Definition pending_call (w : World) (h : nat) (c : Call) : Prop :=
  raced c = Some Pending /\ timer (req c) = Pending
  /\ deferred (req c) = Pending /\ armed (req c) = true
  /\ mux_reqs w !! token (req c) = Some h.

Definition settled_call (w : World) (c : Call) : Prop :=
  (exists p, raced c = Some p /\ p <> Pending)
  /\ armed (req c) = false
  /\ mux_reqs w !! token (req c) = None.

Record CallsInv (w : World) : Prop := {
  ci_nuid : length (calls w) <= nuid w;
  ci_token : forall h c, calls w !! h = Some c ->
    token (req c) = nuid_next (nuid w - length (calls w) + h);
  ci_mux : forall tok h, mux_reqs w !! tok = Some h ->
    exists c, calls w !! h = Some c /\ token (req c) = tok;
  ci_call : forall h c, calls w !! h = Some c ->
    pending_call w h c \/ settled_call w c \/ raced c = None
}.

(** The request objects and the mux entries of [w] replaced. *)
Definition with_calls_mux (w : World) (cs : list Call) (m : gmap string nat)
  : World :=
  {| conn := set_protocol (conn w) (set_reqs (protocol (conn w)) m);
     nuid := nuid w; now := now w; calls := cs |}.

(** What the operations on requests do to the request object they
    touch. *)
Definition cancel_call (c : Call) : Call :=
  {| req := disarm (req c); raced := raced c |}.

Definition race_call (c : Call) : Call :=
  match raced c with
  | Some Pending =>
      match race (timer (req c)) (deferred (req c)) with
      | Rejected e => {| req := disarm (req c); raced := Some (Rejected e) |}
      | p => {| req := req c; raced := Some p |}
      end
  | _ => c
  end.

(** Whether the reaction on [c] runs [r.cancel()]. *)
Definition runs_cancel (c : Call) : bool :=
  match raced c with
  | Some Pending =>
      match race (timer (req c)) (deferred (req c)) with
      | Rejected _ => true
      | _ => false
      end
  | _ => false
  end.

Definition resolve_call (res : Msg + NatsError) (c : Call) : Call :=
  {| req :=
       {| token := token (req c); timeout := timeout (req c);
          deadline := deadline (req c); armed := false;
          timer := timer (req c);
          deferred :=
            match res with
            | inl m => resolve (deferred (req c)) m
            | inr e => reject (deferred (req c)) e
            end |};
     raced := raced c |}.

Definition timeout_call (c : Call) : Call :=
  {| req :=
       {| token := token (req c); timeout := timeout (req c);
          deadline := deadline (req c); armed := false;
          timer := Rejected (errorForCode TIMEOUT);
          deferred := deferred (req c) |};
     raced := raced c |}.

Definition due (t : nat) (c : Call) : bool :=
  armed (req c) && is_pending (timer (req c)) && (deadline (req c) <=? t)%nat.

(** A request object keeps its token and its deadline, and a settled
    promise keeps its state. *)
Definition call_evolves (c c' : Call) : Prop :=
  token (req c') = token (req c)
  /\ deadline (req c') = deadline (req c)
  /\ timeout (req c') = timeout (req c)
  /\ (forall p, raced c = Some p -> p <> Pending -> raced c' = Some p).

(** The event closes a handler that is in state [st]: with which
    result the [closed()] promise is resolved. *)
Definition closes (st : ConnState) (ev : Event) : option (option NatsError) :=
  match ev with
  | Fatal e => if decide (st = CLOSED) then None else Some (Some e)
  | Call_close => if decide (st = CLOSED) then None else Some None
  | Drained => if decide (st = DRAINING) then Some None else None
  | _ => None
  end.

(** The clock after an event. *)
Definition clock (t : nat) (ev : Event) : nat :=
  match ev with Tick => S t | _ => t end.

(** What an event does to the pending request with token [tok] and
    deadline [dl], at time [t]: [Pending] when it leaves it alone. *)
Definition settles (tok : string) (dl t : nat) (ev : Event) : Promise Msg :=
  match ev with
  | Reply tok' m => if decide (tok' = tok) then Fulfilled m else Pending
  | NoResponders tok' =>
      if decide (tok' = tok) then Rejected (errorForCode NO_RESPONDERS)
      else Pending
  | Tick => if (dl <=? S t)%nat then Rejected (errorForCode TIMEOUT) else Pending
  | _ => Pending
  end.

(** The first event that settles the request decides. *)
Fixpoint outcome (tok : string) (dl t : nat) (evs : list Event) : Promise Msg :=
  match evs with
  | [] => Pending
  | ev :: evs' =>
      match settles tok dl t ev with
      | Pending => outcome tok dl (clock t ev) evs'
      | p => p
      end
  end.

(** The frames the protocol layer has been handed. *)
Definition outbound_of (w : World) : list PubFrame :=
  outbound (protocol (conn w)).

(** The events that call [protocol.publish]. *)
Definition sends (ev : Event) : bool :=
  match ev with
  | Call_publish _ _ _ | Call_request _ _ _ => true
  | _ => false
  end.

(** The frame a [publish] hands over. *)
Definition frame_of (opts : ConnectionOptions)
    (m : string * JsValue * option string) : PubFrame :=
  {| pub_subject := fst (fst m);
     pub_data := payload_bytes opts (snd (fst m));
     pub_reply := default "" (snd m) |}.

Definition publish_event (m : string * JsValue * option string) : Event :=
  Call_publish (Some (fst (fst m))) (snd (fst m)) (snd m).

(** The events that call [protocol.subscribe]. *)
Definition registers (ev : Event) : bool :=
  match ev with
  | Call_subscribe _ _ => true
  | _ => false
  end.

(** What the life of the requests in flight leaves alone: the options,
    the frames handed over, the registry of subscriptions and the base
    inbox. *)
Definition carried (w : World)
  : ConnectionOptions * list PubFrame * list SubscriptionImpl * string :=
  (options (conn w), outbound_of w, subscriptions (protocol (conn w)),
   baseInbox (muxSubscriptions (protocol (conn w)))).

(** [w'] is [w] with [sent] handed over and [subs] registered
    besides; the options and the base inbox stay. *)
Definition grows_by (w w' : World) (sent : list PubFrame)
    (subs : list SubscriptionImpl) : Prop :=
  carried w'
  = (options (conn w), (outbound_of w ++ sent)%list,
     (subscriptions (protocol (conn w)) ++ subs)%list,
     baseInbox (muxSubscriptions (protocol (conn w)))).

(** The record a [subscribe] builds and registers. *)
Definition sub_of (s : string * SubscriptionOptions) : SubscriptionImpl :=
  {| sub_subject := fst s; sub_opts := snd s |}.

Definition subscribe_event (s : string * SubscriptionOptions) : Event :=
  Call_subscribe (Some (fst s)) (snd s).

(** The reply subject of a request object. *)
Definition reply_subject (w : World) (c : Call) : string :=
  baseInbox (muxSubscriptions (protocol (conn w))) ++ token (req c).

(** An event that is a reply, of either kind, for [tok]. *)
Definition is_reply (tok : string) (ev : Event) : bool :=
  match ev with
  | Reply tok' _ | NoResponders tok' => bool_decide (tok' = tok)
  | _ => false
  end.

Definition no_reply (tok : string) (evs : list Event) : Prop :=
  Forall (fun ev => is_reply tok ev = false) evs.

(** The milliseconds that pass during [evs]. *)
Fixpoint ticks (evs : list Event) : nat :=
  match evs with
  | [] => 0
  | Tick :: evs' => S (ticks evs')
  | _ :: evs' => ticks evs'
  end.
End Reference.

(** * Properties *)

Section ConnectionFacts.
Context `{JsRuntime} `{Nuid}.

(** ** Frame lemmas: what leaves the closing and draining view alone *)

Lemma foldl_preserved {A B} (P : A -> Prop) (f : A -> B -> A) (l : list B) (a : A) :
  P a -> (forall x b, P x -> P (f x b)) -> P (foldl f a l).
Proof.
  intros Ha Hf. revert a Ha.
  induction l as [|b l IH]; intros a Ha; simpl; [exact Ha|].
  apply IH, Hf, Ha.
Qed.

Lemma publish_view nc subject data reply :
  let nc' := fst (publish nc subject data reply) in
  state (protocol nc') = state (protocol nc)
  /\ draining nc' = draining nc
  /\ closed nc' = closed nc
  /\ muxSubscriptions (protocol nc') = muxSubscriptions (protocol nc)
  /\ options nc' = options nc.
Proof.
  unfold publish, ProtocolHandler_publish.
  destruct (String.length (default "" subject) =? 0)%nat; simpl; [tauto|].
  destruct (state (protocol nc)) eqn:E; simpl; rewrite ?E; tauto.
Qed.

Lemma subscribe_view nc subject opts :
  let nc' := fst (subscribe nc subject opts) in
  state (protocol nc') = state (protocol nc)
  /\ draining nc' = draining nc
  /\ closed nc' = closed nc
  /\ muxSubscriptions (protocol nc') = muxSubscriptions (protocol nc).
Proof.
  unfold subscribe.
  repeat (case_match; simpl); tauto.
Qed.

Lemma Request_cancel_view w h : view (Request_cancel w h) = view w.
Proof. unfold Request_cancel. case_match; reflexivity. Qed.

Lemma react_view w h : view (react w h) = view w.
Proof.
  unfold react. repeat case_match; try reflexivity.
  rewrite Request_cancel_view. reflexivity.
Qed.

Lemma Request_resolver_view w h res : view (Request_resolver w h res) = view w.
Proof. unfold Request_resolver. case_match; reflexivity. Qed.

Lemma dispatch_view w tok res : view (MuxSubscription_dispatch w tok res) = view w.
Proof.
  unfold MuxSubscription_dispatch. case_match; [|reflexivity].
  rewrite react_view. apply Request_resolver_view.
Qed.

Lemma fire_timer_view w h : view (fire_timer w h) = view w.
Proof.
  unfold fire_timer. repeat case_match; try reflexivity.
  rewrite react_view. reflexivity.
Qed.

Lemma tick_view w : view (tick w) = view w.
Proof.
  unfold tick.
  apply (foldl_preserved (fun x => view x = view w)); [reflexivity|].
  intros x b Hx. rewrite fire_timer_view. exact Hx.
Qed.

Lemma request_view w subject timeoutMillis data :
  view (fst (request w subject timeoutMillis data)) = view w.
Proof.
  unfold request.
  repeat (case_match; simpl; try reflexivity).
  all: simplify_eq.
  all: match goal with
       | E : publish ?nc ?s ?d ?r = _ |- _ =>
           pose proof (publish_view nc s d r) as V; rewrite E in V;
           simpl in V; destruct V as (V1 & V2 & V3 & _)
       end.
  all: unfold view, closed in *; simpl; rewrite V1, V2, V3; reflexivity.
Qed.

(** ** The invariant of the closing and draining view *)

Lemma ConnInv_connected opts inbox t0 : ConnInv (view (connected opts inbox t0)).
Proof. cbn. repeat split; try congruence; eauto. Qed.

Lemma ConnInv_step w ev : ConnInv (view w) -> ConnInv (view (step w ev)).
Proof.
  destruct ev; cbn [step].
  - pose proof (publish_view (conn w) subject data reply) as (V1 & V2 & V3 & _).
    unfold view; simpl. rewrite V1, V2, V3. auto.
  - pose proof (subscribe_view (conn w) subject opts) as (V1 & V2 & V3 & _).
    unfold view; simpl. rewrite V1, V2, V3. auto.
  - rewrite request_view. auto.
  - unfold view, drain, isClosed, isDraining, ProtocolHandler_isClosed,
      ProtocolHandler_drain, closed, ConnInv; simpl.
    intros (I1 & I2 & I3 & I4).
    case_bool_decide as Hc; simpl; [repeat split; auto|].
    destruct (draining (conn w)) eqn:Hd; simpl; [repeat split; auto|].
    destruct (state (protocol (conn w))) eqn:Hs; simpl;
      repeat split; try congruence; auto.
  - unfold view, close, ProtocolHandler_close, ProtocolHandler_shutdown,
      closed, ConnInv; simpl.
    intros (I1 & I2 & I3 & I4).
    destruct (state (protocol (conn w))) eqn:Hs; simpl;
      repeat split; try congruence; auto;
      intros _; rewrite I4 by congruence; simpl; eauto.
  - rewrite dispatch_view. auto.
  - rewrite dispatch_view. auto.
  - rewrite tick_view. auto.
  - unfold view, ProtocolHandler_drained, ProtocolHandler_shutdown,
      closed, ConnInv; simpl.
    intros (I1 & I2 & I3 & I4).
    destruct (state (protocol (conn w))) eqn:Hs; simpl; rewrite ?Hs; simpl;
      repeat split; try congruence; auto;
      intros _; rewrite I4 by congruence; simpl; eauto.
  - unfold view, ProtocolHandler_shutdown, closed, ConnInv; simpl.
    intros (I1 & I2 & I3 & I4).
    destruct (state (protocol (conn w))) eqn:Hs; simpl;
      repeat split; try congruence; auto;
      intros _; rewrite I4 by congruence; simpl; eauto.
Qed.

Lemma reachable_ConnInv w : reachable w -> ConnInv (view w).
Proof.
  induction 1 as [opts inbox t0 | w ev _ IH].
  - apply ConnInv_connected.
  - apply ConnInv_step, IH.
Qed.
End ConnectionFacts.

Section ConnectionClaims.
Context `{JsRuntime} `{Nuid}.

Lemma empty_subject_length (subject : option string) :
  subject = None \/ subject = Some "" ->
  (String.length (default "" subject) =? 0)%nat = true.
Proof. intros [-> | ->]; reflexivity. Qed.

(** C1 (as amended).  With an empty subject, or a subject that is
    null or undefined, [publish] always throws BAD_SUBJECT; on a
    connection that is neither closed nor draining, [subscribe]
    throws BAD_SUBJECT and [request] returns a promise rejected with
    BAD_SUBJECT; on a closed or draining connection they fail as
    well, with CONNECTION_CLOSED or CONNECTION_DRAINING, the guards
    that are checked first.  The failed call changes nothing. *)
Theorem empty_subject_is_refused (subject : option string) :
  subject = None \/ subject = Some "" ->
  (forall nc data reply,
      publish nc subject data reply = (nc, Thrown (errorForCode BAD_SUBJECT)))
  /\ (forall nc opts,
         subscribe nc subject opts
         = (nc, Thrown (errorForCode
                          (if isClosed nc then CONNECTION_CLOSED
                           else if isDraining nc then CONNECTION_DRAINING
                           else BAD_SUBJECT))))
  /\ (forall w timeoutMillis data,
         request w subject timeoutMillis data
         = (w, Returned (Promise_reject
                           (errorForCode
                              (if isClosed (conn w) then CONNECTION_CLOSED
                               else if isDraining (conn w) then CONNECTION_DRAINING
                               else BAD_SUBJECT))))).
Proof.
  intros Hs. apply empty_subject_length in Hs.
  split; [|split].
  - intros nc data reply. unfold publish. rewrite Hs. reflexivity.
  - intros nc opts. unfold subscribe. rewrite Hs.
    destruct (isClosed nc); [reflexivity|].
    destruct (isDraining nc); reflexivity.
  - intros w t data. unfold request. rewrite Hs.
    destruct (isClosed (conn w)); [reflexivity|].
    destruct (isDraining (conn w)); reflexivity.
Qed.

Lemma publish_refused_when_not_connected nc subject data reply :
  state (protocol nc) <> CONNECTED ->
  exists e, publish nc subject data reply = (nc, Thrown e).
Proof.
  intros Hs. unfold publish, ProtocolHandler_publish.
  destruct (String.length (default "" subject) =? 0)%nat; [eauto|].
  destruct nc as [o ph d]; simpl in *.
  destruct (state ph) eqn:E; [congruence| |];
    unfold set_protocol; simpl; eauto.
Qed.


Lemma publish_hands_payload_bytes nc subject data reply :
  subject <> "" ->
  hands_over nc subject data reply (payload_bytes (options nc) data).
Proof.
  intros Hs. unfold hands_over, publish. simpl.
  destruct subject as [|c s]; [congruence|]. simpl.
  destruct (ProtocolHandler_publish _ _ _ _). reflexivity.
Qed.

(** C6 (as amended).  [publish] hands the protocol layer bytes only.
    A Uint8Array payload is passed through unchanged.  Any other
    payload is converted first: in JSON payload mode it is
    JSON.stringify'd ([undefined] read as [null]) and UTF-8 encoded;
    otherwise every falsy payload ([undefined], [null], the empty
    string, [false], [0], [NaN]) becomes the empty string, any other
    payload is coerced to a string, and the string is UTF-8
    encoded. *)
Theorem publish_hands_bytes_only nc subject data reply :
  subject <> "" ->
  (forall bytes, data = JUint8Array bytes ->
     hands_over nc subject data reply bytes)
  /\ (isUint8Array data = false -> payload (options nc) = JSON ->
      hands_over nc subject data reply
        (TextEncoder_encode
           (JSON_stringify (match data with JUndefined => JNull | _ => data end))))
  /\ (isUint8Array data = false -> payload (options nc) <> JSON ->
      truthy data = false ->
      hands_over nc subject data reply (TextEncoder_encode ""))
  /\ (isUint8Array data = false -> payload (options nc) <> JSON ->
      truthy data = true ->
      hands_over nc subject data reply (TextEncoder_encode (ToString data))).
Proof.
  intros Hs.
  pose proof (publish_hands_payload_bytes nc subject data reply Hs) as Hp.
  unfold payload_bytes, js_or in Hp.
  repeat split.
  - intros bytes ->. exact Hp.
  - intros Hu Hj. rewrite Hj in Hp.
    destruct data; try discriminate Hu; exact Hp.
  - intros Hu Hj Ht. rewrite Ht in Hp.
    rewrite bool_decide_eq_true_2 in Hp by exact Hj.
    destruct data; try discriminate Hu; exact Hp.
  - intros Hu Hj Ht. rewrite Ht in Hp.
    rewrite bool_decide_eq_true_2 in Hp by exact Hj.
    destruct data; try discriminate Hu; exact Hp.
Qed.

(** ** Draining *)

Lemma draining_step w ev :
  draining (conn w) = true -> draining (conn (step w ev)) = true.
Proof.
  intros Hd.
  assert (Hv : forall w', view w' = view w -> draining (conn w') = true).
  { intros w' Hv. unfold view in Hv. congruence. }
  destruct ev; cbn [step].
  - pose proof (publish_view (conn w) subject data reply) as (_ & V2 & _).
    simpl in *. congruence.
  - pose proof (subscribe_view (conn w) subject opts) as (_ & V2 & _).
    simpl in *. congruence.
  - apply Hv, request_view.
  - unfold drain. repeat case_match; simpl; auto.
  - exact Hd.
  - apply Hv, dispatch_view.
  - apply Hv, dispatch_view.
  - apply Hv, tick_view.
  - exact Hd.
  - exact Hd.
Qed.

Lemma draining_run w evs :
  draining (conn w) = true -> draining (conn (run w evs)) = true.
Proof.
  intros Hd. unfold run.
  apply (foldl_preserved (fun x => draining (conn x) = true)); [exact Hd|].
  intros x ev. apply draining_step.
Qed.

(** C9 (as amended).  [drain] is irreversible.  Called on an open
    connection that is not draining, it sets the draining flag and
    then delegates to the protocol handler; no operation clears the
    flag, so [isDraining()] is true from then on; and every later
    [drain()] is rejected, with CONNECTION_DRAINING as long as the
    connection has not closed and with CONNECTION_CLOSED once it
    has. *)
Theorem drain_is_irreversible w :
  isClosed (conn w) = false -> isDraining (conn w) = false ->
  drain (conn w)
  = ({| options := options (conn w);
        protocol := ProtocolHandler_drain (protocol (conn w));
        draining := true |}, Pending)
  /\ forall evs,
      let nc := conn (run (step w Call_drain) evs) in
      isDraining nc = true
      /\ (isClosed nc = false ->
          drain nc = (nc, Rejected (errorForCode CONNECTION_DRAINING)))
      /\ (isClosed nc = true ->
          drain nc = (nc, Rejected (errorForCode CONNECTION_CLOSED))).
Proof.
  intros Hc Hd.
  assert (E : drain (conn w)
              = ({| options := options (conn w);
                    protocol := ProtocolHandler_drain (protocol (conn w));
                    draining := true |}, Pending)).
  { unfold drain. rewrite Hc, Hd. reflexivity. }
  split; [exact E|].
  intros evs nc.
  assert (Hn : isDraining nc = true).
  { apply draining_run. cbn [step]. rewrite E. reflexivity. }
  split; [exact Hn|]. split.
  - intros Hc'. unfold drain. rewrite Hc', Hn. reflexivity.
  - intros Hc'. unfold drain. rewrite Hc'. reflexivity.
Qed.
End ConnectionClaims.

Section CallsFacts.
Context `{JsRuntime} `{Nuid}.

Lemma with_calls_mux_id w : with_calls_mux w (calls w) (mux_reqs w) = w.
Proof.
  destruct w as [[o [st cl [bi rq] ob sb] d] n t cs]. reflexivity.
Qed.

Lemma alter_absent {A} (f : A -> A) (l : list A) i :
  l !! i = None -> alter f i l = l.
Proof.
  intros Hn. apply list_eq. intros j. rewrite list_lookup_alter.
  case_decide; subst; [rewrite Hn|]; reflexivity.
Qed.

Lemma alter_same {A} (f : A -> A) (l : list A) i :
  (forall x, l !! i = Some x -> f x = x) -> alter f i l = l.
Proof.
  intros Hf. apply list_eq. intros j. rewrite list_lookup_alter.
  case_decide; subst; [|reflexivity].
  destruct (l !! j) eqn:E; [|reflexivity]. simpl. rewrite Hf; done.
Qed.

Lemma alter_twice {A} (f g : A -> A) (l : list A) i :
  alter f i (alter g i l) = alter (fun x => f (g x)) i l.
Proof.
  apply list_eq. intros j. rewrite !list_lookup_alter.
  repeat case_decide; subst; try done.
  destruct (l !! j); reflexivity.
Qed.

Lemma update_call_eq w h f g :
  (forall c, calls w !! h = Some c -> f c = g c) ->
  update_call w h f = with_calls_mux w (alter g h (calls w)) (mux_reqs w).
Proof.
  intros Hfg.
  rewrite <- (with_calls_mux_id w) at 1.
  unfold update_call, with_calls_mux. cbn. f_equal.
  apply list_alter_ext; [exact Hfg|reflexivity].
Qed.

Lemma Request_cancel_eq w h :
  Request_cancel w h
  = with_calls_mux w (alter cancel_call h (calls w))
      match calls w !! h with
      | Some c => delete (token (req c)) (mux_reqs w)
      | None => mux_reqs w
      end.
Proof.
  unfold Request_cancel.
  destruct (calls w !! h) as [c|] eqn:Hc; [reflexivity|].
  rewrite alter_absent by exact Hc. symmetry. apply with_calls_mux_id.
Qed.

Lemma react_eq w h :
  react w h
  = with_calls_mux w (alter race_call h (calls w))
      match calls w !! h with
      | Some c =>
          if runs_cancel c then delete (token (req c)) (mux_reqs w)
          else mux_reqs w
      | None => mux_reqs w
      end.
Proof.
  unfold react.
  destruct (calls w !! h) as [c|] eqn:Hc.
  - unfold runs_cancel.
    destruct (raced c) as [[| |]|] eqn:Hr.
    + destruct (race (timer (req c)) (deferred (req c))) eqn:Hp.
      * apply update_call_eq. intros c' Hc'. simplify_eq.
        unfold race_call. rewrite Hr, Hp. reflexivity.
      * apply update_call_eq. intros c' Hc'. simplify_eq.
        unfold race_call. rewrite Hr, Hp. reflexivity.
      * rewrite Request_cancel_eq.
        erewrite update_call_eq by (intros; reflexivity).
        cbn [calls with_calls_mux]. rewrite alter_twice.
        rewrite list_lookup_alter_eq, Hc. cbn.
        unfold with_calls_mux. cbn. f_equal.
        apply list_alter_ext; [|reflexivity].
        intros c' Hc'. simplify_eq.
        unfold race_call, cancel_call. rewrite Hr, Hp. reflexivity.
    + rewrite <- (with_calls_mux_id w) at 1. f_equal.
      symmetry. apply alter_same.
      intros c' Hc'. simplify_eq. unfold race_call. rewrite Hr. reflexivity.
    + rewrite <- (with_calls_mux_id w) at 1. f_equal.
      symmetry. apply alter_same.
      intros c' Hc'. simplify_eq. unfold race_call. rewrite Hr. reflexivity.
    + rewrite <- (with_calls_mux_id w) at 1. f_equal.
      symmetry. apply alter_same.
      intros c' Hc'. simplify_eq. unfold race_call. rewrite Hr. reflexivity.
  - rewrite alter_absent by exact Hc. symmetry. apply with_calls_mux_id.
Qed.

Lemma Request_resolver_eq w h res :
  Request_resolver w h res
  = with_calls_mux w (alter (resolve_call res) h (calls w))
      match calls w !! h with
      | Some c => delete (token (req c)) (mux_reqs w)
      | None => mux_reqs w
      end.
Proof.
  unfold Request_resolver.
  destruct (calls w !! h) as [c|] eqn:Hc; [reflexivity|].
  rewrite alter_absent by exact Hc. symmetry. apply with_calls_mux_id.
Qed.

Lemma dispatch_eq w tok res h c :
  mux_reqs w !! tok = Some h -> calls w !! h = Some c ->
  MuxSubscription_dispatch w tok res
  = with_calls_mux w
      (alter (fun c => race_call (resolve_call res c)) h (calls w))
      (delete (token (req c)) (mux_reqs w)).
Proof.
  intros Hm Hc. unfold MuxSubscription_dispatch. rewrite Hm.
  rewrite react_eq, Request_resolver_eq, Hc.
  cbn [calls with_calls_mux]. rewrite alter_twice.
  rewrite list_lookup_alter_eq, Hc. cbn [fmap option_fmap option_map].
  unfold with_calls_mux. cbn. do 4 f_equal.
  destruct (runs_cancel (resolve_call res c)); [|reflexivity].
  apply delete_delete_eq.
Qed.

Lemma fire_timer_eq w h c :
  calls w !! h = Some c ->
  fire_timer w h
  = if due (now w) c
    then with_calls_mux w
           (alter (fun c => race_call (timeout_call c)) h (calls w))
           (if runs_cancel (timeout_call c)
            then delete (token (req c)) (mux_reqs w) else mux_reqs w)
    else w.
Proof.
  intros Hc. unfold fire_timer, due. rewrite Hc.
  case_match; [|reflexivity].
  rewrite react_eq.
  erewrite update_call_eq by (intros; reflexivity).
  cbn [calls with_calls_mux]. rewrite alter_twice.
  rewrite list_lookup_alter_eq, Hc. cbn [fmap option_fmap option_map].
  reflexivity.
Qed.

(** ** The invariant of the requests in flight *)

(** The generator never hands out a token twice. *)
Hypothesis nuid_fresh : forall i j, nuid_next i = nuid_next j -> i = j.

Lemma tokens_differ w h1 h2 c1 c2 :
  CallsInv w ->
  calls w !! h1 = Some c1 -> calls w !! h2 = Some c2 ->
  token (req c1) = token (req c2) -> h1 = h2.
Proof.
  intros I E1 E2 Ht.
  rewrite (ci_token w I h1 c1 E1), (ci_token w I h2 c2 E2) in Ht.
  apply nuid_fresh in Ht. lia.
Qed.

Lemma CallsInv_connected opts inbox t0 : CallsInv (connected opts inbox t0).
Proof.
  constructor; cbn.
  - lia.
  - intros h c Hc. rewrite lookup_nil in Hc. discriminate.
  - intros tok h Hm. rewrite lookup_empty in Hm. discriminate.
  - intros h c Hc. rewrite lookup_nil in Hc. discriminate.
Qed.

(** The request object [h] is rewritten to a settled one, or to one
    without a promise, and its entry possibly leaves the mux. *)
Lemma CallsInv_touch w h c f m :
  CallsInv w -> calls w !! h = Some c ->
  token (req (f c)) = token (req c) ->
  (m = delete (token (req c)) (mux_reqs w)
   /\ (((exists p, raced (f c) = Some p /\ p <> Pending)
        /\ armed (req (f c)) = false)
       \/ raced (f c) = None))
  \/ (m = mux_reqs w /\ raced (f c) = None) ->
  CallsInv (with_calls_mux w (alter f h (calls w)) m).
Proof.
  intros I Hc Htok Hm.
  assert (Hsub : forall t k, m !! t = Some k -> mux_reqs w !! t = Some k).
  { intros t k Hk. destruct Hm as [[-> _] | [-> _]]; [|exact Hk].
    apply lookup_delete_Some in Hk. tauto. }
  assert (Hkeep : forall j cj, calls w !! j = Some cj -> j <> h ->
                               m !! token (req cj) = mux_reqs w !! token (req cj)).
  { intros j cj Hj Hne. destruct Hm as [[-> _] | [-> _]]; [|reflexivity].
    apply lookup_delete_ne. intros Heq.
    apply Hne. symmetry. eapply tokens_differ; eauto. }
  constructor; cbn [calls nuid with_calls_mux].
  - rewrite length_alter. apply (ci_nuid w I).
  - intros j c' Hj. rewrite length_alter.
    rewrite list_lookup_alter in Hj. case_decide; subst.
    + rewrite Hc in Hj. simpl in Hj. simplify_eq. rewrite Htok.
      apply (ci_token w I), Hc.
    + apply (ci_token w I), Hj.
  - intros t k Hk. change (mux_reqs (with_calls_mux w _ m)) with m in Hk.
    apply Hsub in Hk. destruct (ci_mux w I t k Hk) as (ck & Hck & Ht).
    rewrite list_lookup_alter. case_decide; subst.
    + rewrite Hc in Hck. simplify_eq. rewrite Hc. simpl. eauto.
    + eauto.
  - intros j c' Hj.
    change (mux_reqs (with_calls_mux w _ m)) with m.
    unfold pending_call, settled_call.
    change (mux_reqs (with_calls_mux w _ m)) with m.
    rewrite list_lookup_alter in Hj. case_decide; subst.
    + rewrite Hc in Hj. simpl in Hj. simplify_eq.
      destruct Hm as [[-> [[Hp Ha] | Hn]] | [-> Hn]]; auto.
      right; left. split; [exact Hp|]. split; [exact Ha|].
      rewrite Htok. apply lookup_delete_eq.
    + rewrite (Hkeep j c' Hj) by congruence.
      apply (ci_call w I j c' Hj).
Qed.

Lemma race_call_token c : token (req (race_call c)) = token (req c).
Proof. unfold race_call. repeat case_match; reflexivity. Qed.

Lemma CallsInv_dispatch w tok res :
  CallsInv w -> CallsInv (MuxSubscription_dispatch w tok res).
Proof.
  intros I.
  destruct (mux_reqs w !! tok) as [h|] eqn:Hm.
  2:{ unfold MuxSubscription_dispatch. rewrite Hm. exact I. }
  destruct (ci_mux w I tok h Hm) as (c & Hc & Ht).
  rewrite (dispatch_eq w tok res h c Hm Hc).
  apply (CallsInv_touch w h c); [exact I|exact Hc|cbn beta; rewrite race_call_token; reflexivity|].
  left. split; [reflexivity|].
  destruct (ci_call w I h c Hc) as [P | [S | O]].
  - destruct P as (Hr & Htm & Hd & _).
    left. unfold race_call, resolve_call. cbn. rewrite Hr, Htm, Hd.
    destruct res; cbn; split; eauto; eexists; split; eauto; discriminate.
  - destruct S as (_ & _ & Hn). rewrite Ht, Hm in Hn. discriminate.
  - right. unfold race_call, resolve_call. cbn. rewrite O. reflexivity.
Qed.

Lemma CallsInv_fire_timer w h : CallsInv w -> CallsInv (fire_timer w h).
Proof.
  intros I.
  destruct (calls w !! h) as [c|] eqn:Hc.
  2:{ unfold fire_timer. rewrite Hc. exact I. }
  rewrite (fire_timer_eq w h c Hc).
  destruct (due (now w) c) eqn:Hdue; [|exact I].
  apply (CallsInv_touch w h c); [exact I|exact Hc|cbn beta; rewrite race_call_token; reflexivity|].
  destruct (ci_call w I h c Hc) as [P | [S | O]].
  - destruct P as (Hr & Htm & Hd & _).
    left. unfold runs_cancel, race_call, timeout_call. cbn. rewrite Hr. cbn.
    split; [reflexivity|]. left.
    split; [eexists; split; [reflexivity|discriminate]|reflexivity].
  - destruct S as (_ & Ha & _). unfold due in Hdue. rewrite Ha in Hdue.
    discriminate.
  - right. unfold runs_cancel, race_call, timeout_call. cbn. rewrite O. cbn.
    auto.
Qed.

Lemma CallsInv_tick w : CallsInv w -> CallsInv (tick w).
Proof.
  intros I. unfold tick.
  apply foldl_preserved.
  - destruct I as [I1 I2 I3 I4]. constructor; assumption.
  - intros x b. apply CallsInv_fire_timer.
Qed.

Lemma publish_returned nc subject data reply nc' :
  publish nc (Some subject) data reply = (nc', Returned tt) ->
  state (protocol nc) = CONNECTED
  /\ outbound (protocol nc')
     = (outbound (protocol nc) ++
        [{| pub_subject := subject;
            pub_data := payload_bytes (options nc) data;
            pub_reply := default "" reply |}])%list.
Proof.
  unfold publish, ProtocolHandler_publish. cbn [default from_option id].
  destruct (String.length subject =? 0)%nat; [intros E; discriminate E|].
  destruct (state (protocol nc)); intros E; [|discriminate E..].
  inversion E; subst. split; reflexivity.
Qed.

(** What an accepted [request] leaves behind. *)
Lemma request_accepted w subject timeoutMillis data :
  isClosed (conn w) = false -> isDraining (conn w) = false ->
  subject <> "" ->
  let w' := fst (request w (Some subject) timeoutMillis data) in
  let tok := nuid_next (nuid w) in
  let h := length (calls w) in
  let rq := {| token := tok; timeout := default 1000 timeoutMillis;
               deadline := now w + default 1000 timeoutMillis;
               armed := true; timer := Pending; deferred := Pending |} in
  nuid w' = S (nuid w) /\ now w' = now w
  /\ mux_reqs w' = <[tok := h]> (mux_reqs w)
  /\ ((calls w' = (calls w ++ [{| req := rq; raced := Some Pending |}])%list
       /\ snd (request w (Some subject) timeoutMillis data)
          = Returned (Promise_race h)
       /\ state (protocol (conn w)) = CONNECTED
       /\ outbound (protocol (conn w'))
          = (outbound (protocol (conn w)) ++
             [{| pub_subject := subject;
                 pub_data := payload_bytes (options (conn w)) data;
                 pub_reply :=
                   baseInbox (muxSubscriptions (protocol (conn w))) ++ tok |}])%list)
      \/ (calls w' = (calls w ++ [{| req := rq; raced := None |}])%list
          /\ exists e, snd (request w (Some subject) timeoutMillis data)
                       = Thrown e)).
Proof.
  intros Hc Hd Hs. unfold request. rewrite Hc, Hd.
  destruct subject as [|a s]; [congruence|].
  cbn [default String.length Nat.eqb new_Request].
  unfold call_token. cbn [calls].
  rewrite list_lookup_middle by reflexivity. cbn [req token].
  cbn [conn set_conn].
  match goal with
  | |- context [publish ?nc ?s ?d ?r] =>
      pose proof (publish_view nc s d r) as V;
      destruct (publish nc s d r) as [nc' res] eqn:E
  end.
  cbn in V. destruct V as (_ & _ & _ & V4 & _).
  destruct res as [[]|e]; cbn.
  - split; [reflexivity|]. split; [reflexivity|].
    split; [unfold mux_reqs; cbn; rewrite V4; reflexivity|].
    left. split; [|split; [reflexivity|]].
    + rewrite alter_app_r_alt by lia. rewrite Nat.sub_diag. reflexivity.
    + apply publish_returned in E. exact E.
  - split; [reflexivity|]. split; [reflexivity|].
    split; [unfold mux_reqs; cbn; rewrite V4; reflexivity|].
    right. split; [reflexivity|]. eauto.
Qed.

Lemma request_rejected w subject timeoutMillis data :
  isClosed (conn w) = true \/ isDraining (conn w) = true
  \/ default "" subject = "" ->
  fst (request w subject timeoutMillis data) = w.
Proof.
  intros Hr. unfold request.
  destruct (isClosed (conn w)); [reflexivity|].
  destruct (isDraining (conn w)); [reflexivity|].
  destruct Hr as [Hr | [Hr | Hr]]; try discriminate Hr.
  rewrite Hr. reflexivity.
Qed.

Lemma request_cases w subject timeoutMillis data :
  fst (request w subject timeoutMillis data) = w
  \/ exists s, subject = Some s /\ s <> ""
               /\ isClosed (conn w) = false /\ isDraining (conn w) = false.
Proof.
  destruct (isClosed (conn w)) eqn:Hc;
    [left; apply request_rejected; auto|].
  destruct (isDraining (conn w)) eqn:Hd;
    [left; apply request_rejected; auto|].
  destruct subject as [s|]; [|left; apply request_rejected; auto].
  destruct (decide (s = "")) as [->|Hs];
    [left; apply request_rejected; auto|].
  right. eauto.
Qed.

Lemma CallsInv_ext w w' :
  calls w' = calls w -> nuid w' = nuid w -> mux_reqs w' = mux_reqs w ->
  CallsInv w -> CallsInv w'.
Proof.
  intros E1 E2 E3 [I1 I2 I3 I4].
  constructor; unfold pending_call, settled_call in *;
    rewrite ?E1, ?E2, ?E3; assumption.
Qed.

Lemma CallsInv_request w subject timeoutMillis data :
  CallsInv w -> CallsInv (fst (request w subject timeoutMillis data)).
Proof.
  intros I.
  destruct (request_cases w subject timeoutMillis data)
    as [-> | (s & -> & Hs & Hc & Hd)]; [exact I|].
  pose proof (request_accepted w s timeoutMillis data Hc Hd Hs) as R.
  cbn zeta in R. destruct R as (En & _ & Em & Ecalls).
  set (w' := fst (request w (Some s) timeoutMillis data)) in *.
  assert (exists c0, calls w' = (calls w ++ [c0])%list
                     /\ token (req c0) = nuid_next (nuid w)
                     /\ (raced c0 = Some Pending /\ timer (req c0) = Pending
                         /\ deferred (req c0) = Pending /\ armed (req c0) = true
                         \/ raced c0 = None))
    as (c0 & Ec & Et & Hshape).
  { destruct Ecalls as [(Ec & _) | (Ec & _)]; eexists; (split; [exact Ec|]);
      cbn; auto 10. }
  clear Ecalls.
  pose proof (ci_nuid w I) as Hle.
  assert (Hfresh : forall j cj, calls w !! j = Some cj ->
                                token (req cj) <> nuid_next (nuid w)).
  { intros j cj Hj Heq. rewrite (ci_token w I j cj Hj) in Heq.
    apply nuid_fresh in Heq. apply lookup_lt_Some in Hj. lia. }
  constructor; unfold pending_call, settled_call; rewrite ?Ec, ?En, ?Em.
  - rewrite length_app. simpl. lia.
  - intros j c' Hj. rewrite length_app. simpl.
    apply lookup_app_Some in Hj. destruct Hj as [Hj | [Hlen Hj]].
    + rewrite (ci_token w I j c' Hj). f_equal. lia.
    + destruct (j - length (calls w)) as [|k] eqn:Ek; [|destruct k; discriminate Hj].
      simpl in Hj. simplify_eq. rewrite Et. f_equal. lia.
  - intros t k Hk. apply lookup_insert_Some in Hk.
    destruct Hk as [[<- <-] | [Hne Hk]].
    + exists c0. split; [apply list_lookup_middle; reflexivity|exact Et].
    + destruct (ci_mux w I t k Hk) as (ck & Hck & Htk).
      exists ck. split; [|exact Htk].
      rewrite lookup_app_l by (eapply lookup_lt_Some; eauto). exact Hck.
  - intros j c' Hj.
    apply lookup_app_Some in Hj. destruct Hj as [Hj | [Hlen Hj]].
    + rewrite lookup_insert_ne by (intros Heq; eapply Hfresh; eauto).
      apply (ci_call w I j c' Hj).
    + destruct (j - length (calls w)) as [|k] eqn:Ek; [|destruct k; discriminate Hj].
      simpl in Hj. simplify_eq.
      assert (j = length (calls w)) as -> by lia.
      destruct Hshape as [(Hr & Htm & Hdf & Ha) | Hn]; [left|right; right; exact Hn].
      rewrite Et. rewrite lookup_insert_eq. auto.
Qed.

Lemma CallsInv_step w ev : CallsInv w -> CallsInv (step w ev).
Proof.
  intros I. destruct ev; cbn [step].
  - pose proof (publish_view (conn w) subject data reply) as (_ & _ & _ & V & _).
    eapply CallsInv_ext; [..|exact I]; try reflexivity.
    unfold mux_reqs. cbn. rewrite V. reflexivity.
  - pose proof (subscribe_view (conn w) subject opts) as (_ & _ & _ & V).
    eapply CallsInv_ext; [..|exact I]; try reflexivity.
    unfold mux_reqs. cbn. rewrite V. reflexivity.
  - apply CallsInv_request, I.
  - eapply CallsInv_ext; [..|exact I]; try reflexivity.
    unfold mux_reqs, drain, ProtocolHandler_drain. cbn.
    repeat case_match; reflexivity.
  - eapply CallsInv_ext; [..|exact I]; try reflexivity.
    unfold mux_reqs, close, ProtocolHandler_close, ProtocolHandler_shutdown. cbn.
    repeat case_match; reflexivity.
  - apply CallsInv_dispatch, I.
  - apply CallsInv_dispatch, I.
  - apply CallsInv_tick, I.
  - eapply CallsInv_ext; [..|exact I]; try reflexivity.
    unfold mux_reqs, ProtocolHandler_drained, ProtocolHandler_shutdown. cbn.
    repeat case_match; reflexivity.
  - eapply CallsInv_ext; [..|exact I]; try reflexivity.
    unfold mux_reqs, ProtocolHandler_shutdown. cbn.
    repeat case_match; reflexivity.
Qed.

Lemma CallsInv_run w evs : CallsInv w -> CallsInv (run w evs).
Proof.
  intros I. unfold run. apply foldl_preserved; [exact I|].
  intros x ev. apply CallsInv_step.
Qed.

Lemma reachable_CallsInv w : reachable w -> CallsInv w.
Proof.
  induction 1 as [opts inbox t0 | w ev _ IH].
  - apply CallsInv_connected.
  - apply CallsInv_step, IH.
Qed.

(** ** The life of one request *)

Lemma call_evolves_refl c : call_evolves c c.
Proof. unfold call_evolves. auto. Qed.

Lemma call_evolves_trans c1 c2 c3 :
  call_evolves c1 c2 -> call_evolves c2 c3 -> call_evolves c1 c3.
Proof.
  unfold call_evolves. intros (A1 & A2 & A3 & A4) (B1 & B2 & B3 & B4).
  repeat split; try congruence. auto.
Qed.

Lemma race_call_evolves c : call_evolves c (race_call c).
Proof.
  unfold call_evolves, race_call.
  repeat case_match; cbn; repeat split; auto; intros; congruence.
Qed.

Lemma resolve_call_evolves res c : call_evolves c (resolve_call res c).
Proof. unfold call_evolves, resolve_call. cbn. auto. Qed.

Lemma timeout_call_evolves c : call_evolves c (timeout_call c).
Proof. unfold call_evolves, timeout_call. cbn. auto. Qed.

Lemma fire_timer_now w i : now (fire_timer w i) = now w.
Proof.
  destruct (calls w !! i) as [c|] eqn:Hc.
  - rewrite (fire_timer_eq w i c Hc). case_match; reflexivity.
  - unfold fire_timer. rewrite Hc. reflexivity.
Qed.

Lemma fire_timer_lookup w i h :
  calls (fire_timer w i) !! h
  = if decide (i = h)
    then (fun c => if due (now w) c then race_call (timeout_call c) else c)
           <$> calls w !! h
    else calls w !! h.
Proof.
  destruct (calls w !! i) as [c|] eqn:Hc.
  - rewrite (fire_timer_eq w i c Hc).
    destruct (due (now w) c) eqn:Hdue.
    + cbn [calls with_calls_mux]. rewrite list_lookup_alter.
      case_decide; [|reflexivity]. subst. rewrite Hc. cbn. rewrite Hdue.
      reflexivity.
    + case_decide; [|reflexivity]. subst. rewrite Hc. cbn. rewrite Hdue.
      reflexivity.
  - unfold fire_timer. rewrite Hc.
    case_decide; [|reflexivity]. subst. rewrite Hc. reflexivity.
Qed.

Lemma fire_timers_elsewhere l w h :
  h ∉ l ->
  calls (foldl fire_timer w l) !! h = calls w !! h
  /\ now (foldl fire_timer w l) = now w.
Proof.
  revert w. induction l as [|i l IH]; intros w Hh; [split; reflexivity|].
  apply not_elem_of_cons in Hh. destruct Hh as [Hne Hh].
  cbn [foldl]. destruct (IH (fire_timer w i) Hh) as [-> ->].
  rewrite fire_timer_now, fire_timer_lookup.
  rewrite decide_False by congruence. split; reflexivity.
Qed.

Lemma tick_now w : now (tick w) = S (now w).
Proof.
  unfold tick.
  apply (foldl_preserved (fun x => now x = S (now w))); [reflexivity|].
  intros x i Hx. rewrite fire_timer_now. exact Hx.
Qed.

Lemma tick_lookup w h c :
  calls w !! h = Some c ->
  calls (tick w) !! h
  = Some (if due (S (now w)) c then race_call (timeout_call c) else c).
Proof.
  intros Hc. unfold tick.
  pose proof (lookup_lt_Some _ _ _ Hc) as Hlt.
  cbn zeta. cbn [calls].
  set (w1 := {| conn := conn w; nuid := nuid w; now := S (now w);
                calls := calls w |}).
  replace (length (calls w)) with (h + S (length (calls w) - S h)) by lia.
  rewrite seq_app. cbn [seq]. rewrite foldl_app. cbn [foldl].
  rewrite Nat.add_0_l.
  destruct (fire_timers_elsewhere (seq 0 h) w1 h) as [Ea Eb].
  { rewrite elem_of_seq. lia. }
  destruct (fire_timers_elsewhere (seq (S h) (length (calls w) - S h))
              (fire_timer (foldl fire_timer w1 (seq 0 h)) h) h) as [Ec _].
  { rewrite elem_of_seq. lia. }
  rewrite Ec, fire_timer_lookup, decide_True by reflexivity.
  rewrite Ea, Eb. cbn. rewrite Hc. reflexivity.
Qed.

Lemma dispatch_now w tok res : now (MuxSubscription_dispatch w tok res) = now w.
Proof.
  unfold MuxSubscription_dispatch. case_match; [|reflexivity].
  rewrite react_eq, Request_resolver_eq. reflexivity.
Qed.

Lemma request_now w subject timeoutMillis data :
  now (fst (request w subject timeoutMillis data)) = now w.
Proof.
  destruct (request_cases w subject timeoutMillis data)
    as [-> | (s & -> & Hs & Hc & Hd)]; [reflexivity|].
  apply (request_accepted w s timeoutMillis data Hc Hd Hs).
Qed.

Lemma step_now w ev : now (step w ev) = clock (now w) ev.
Proof.
  destruct ev; cbn [step clock]; try reflexivity.
  - apply request_now.
  - apply dispatch_now.
  - apply dispatch_now.
  - apply tick_now.
Qed.

Lemma dispatch_lookup w tok res h c :
  CallsInv w -> calls w !! h = Some c ->
  calls (MuxSubscription_dispatch w tok res) !! h
  = Some (if decide (mux_reqs w !! tok = Some h)
          then race_call (resolve_call res c) else c).
Proof.
  intros I Hc.
  destruct (mux_reqs w !! tok) as [h'|] eqn:Hm.
  - destruct (ci_mux w I tok h' Hm) as (c' & Hc' & Ht).
    rewrite (dispatch_eq w tok res h' c' Hm Hc').
    cbn [calls with_calls_mux]. rewrite list_lookup_alter.
    destruct (decide (h' = h)) as [->|Hne].
    + rewrite Hc. rewrite decide_True by reflexivity. reflexivity.
    + rewrite decide_False by congruence. exact Hc.
  - unfold MuxSubscription_dispatch. rewrite Hm.
    rewrite decide_False by discriminate. exact Hc.
Qed.

Lemma request_lookup w subject timeoutMillis data h c :
  calls w !! h = Some c ->
  calls (fst (request w subject timeoutMillis data)) !! h = Some c.
Proof.
  intros Hc.
  destruct (request_cases w subject timeoutMillis data)
    as [-> | (s & -> & Hs & Hcl & Hd)]; [exact Hc|].
  destruct (request_accepted w s timeoutMillis data Hcl Hd Hs)
    as (_ & _ & _ & [(-> & _) | (-> & _)]);
    rewrite lookup_app_l by (eapply lookup_lt_Some; eauto); exact Hc.
Qed.

(** Whatever happens, a request object keeps its token and its
    deadline, and its promise, once settled, keeps its state. *)
Lemma step_evolves w ev h c :
  CallsInv w -> calls w !! h = Some c ->
  exists c', calls (step w ev) !! h = Some c' /\ call_evolves c c'.
Proof.
  intros I Hc.
  destruct ev; cbn [step];
    try (exists c; split; [exact Hc|apply call_evolves_refl]).
  - exists c. split; [|apply call_evolves_refl].
    apply request_lookup, Hc.
  - rewrite (dispatch_lookup w tok _ h c I Hc). eexists. split; [reflexivity|].
    case_decide; [|apply call_evolves_refl].
    eapply call_evolves_trans;
      [apply resolve_call_evolves|apply race_call_evolves].
  - rewrite (dispatch_lookup w tok _ h c I Hc). eexists. split; [reflexivity|].
    case_decide; [|apply call_evolves_refl].
    eapply call_evolves_trans;
      [apply resolve_call_evolves|apply race_call_evolves].
  - rewrite (tick_lookup w h c Hc). eexists. split; [reflexivity|].
    case_match; [|apply call_evolves_refl].
    eapply call_evolves_trans;
      [apply timeout_call_evolves|apply race_call_evolves].
Qed.

Lemma run_evolves evs w h c :
  CallsInv w -> calls w !! h = Some c ->
  exists c', calls (run w evs) !! h = Some c' /\ call_evolves c c'.
Proof.
  revert w c. induction evs as [|ev evs IH]; intros w c I Hc.
  - exists c. split; [exact Hc|apply call_evolves_refl].
  - destruct (step_evolves w ev h c I Hc) as (c1 & Hc1 & E1).
    destruct (IH (step w ev) c1 (CallsInv_step w ev I) Hc1) as (c2 & Hc2 & E2).
    exists c2. split; [exact Hc2|]. eapply call_evolves_trans; eauto.
Qed.

(** One event on a pending request. *)
Lemma pending_step w ev h c :
  CallsInv w -> calls w !! h = Some c -> pending_call w h c ->
  exists c', calls (step w ev) !! h = Some c'
             /\ raced c' = Some (settles (token (req c)) (deadline (req c)) (now w) ev).
Proof.
  intros I Hc (Hr & Htm & Hdf & Ha & Hm).
  assert (Hdisp : forall tok res,
             calls (MuxSubscription_dispatch w tok res) !! h
             = Some (if decide (tok = token (req c))
                     then race_call (resolve_call res c) else c)).
  { intros tok res. rewrite (dispatch_lookup w tok res h c I Hc). f_equal.
    destruct (decide (tok = token (req c))) as [->|Hne].
    - rewrite decide_True by exact Hm. reflexivity.
    - rewrite decide_False; [reflexivity|].
      intros Hk. destruct (ci_mux w I tok h Hk) as (c' & Hc' & Ht).
      congruence. }
  destruct ev; cbn [step settles];
    try (exists c; split; [exact Hc|exact Hr]).
  - exists c. split; [apply request_lookup, Hc|exact Hr].
  - rewrite Hdisp. eexists. split; [reflexivity|].
    case_decide; [|exact Hr].
    unfold race_call, resolve_call. cbn. rewrite Hr, Htm, Hdf. reflexivity.
  - rewrite Hdisp. eexists. split; [reflexivity|].
    case_decide; [|exact Hr].
    unfold race_call, resolve_call. cbn. rewrite Hr, Htm, Hdf. reflexivity.
  - rewrite (tick_lookup w h c Hc). eexists. split; [reflexivity|].
    unfold due. rewrite Ha, Htm. cbn [is_pending andb].
    destruct (deadline (req c) <=? S (now w))%nat; [|exact Hr].
    unfold race_call, timeout_call. cbn. rewrite Hr. reflexivity.
Qed.

(** The promise of a pending request is decided by the first event
    that settles it. *)
Lemma run_outcome evs w h c :
  CallsInv w -> calls w !! h = Some c -> pending_call w h c ->
  call_promise (run w evs) h
  = outcome (token (req c)) (deadline (req c)) (now w) evs.
Proof.
  revert w c. induction evs as [|ev evs IH]; intros w c I Hc P.
  - cbn. unfold call_promise. rewrite Hc. destruct P as (-> & _). reflexivity.
  - cbn [run foldl outcome]. fold (run (step w ev) evs).
    destruct (pending_step w ev h c I Hc P) as (c1 & Hc1 & Hr1).
    destruct (step_evolves w ev h c I Hc) as (c1' & Hc1' & (Et & Ed & _)).
    rewrite Hc1 in Hc1'. injection Hc1' as <-.
    pose proof (CallsInv_step w ev I) as I1.
    destruct (settles (token (req c)) (deadline (req c)) (now w) ev) eqn:Es.
    + rewrite <- Et, <- Ed, <- step_now. apply IH; [exact I1|exact Hc1|].
      destruct (ci_call _ I1 h c1 Hc1) as [P1 | [((p & Hp & Hnp) & _) | O]];
        [exact P1|congruence|congruence].
    + destruct (run_evolves evs (step w ev) h c1 I1 Hc1) as (c2 & Hc2 & (_ & _ & _ & Hk)).
      unfold call_promise. rewrite Hc2, (Hk _ Hr1) by discriminate. reflexivity.
    + destruct (run_evolves evs (step w ev) h c1 I1 Hc1) as (c2 & Hc2 & (_ & _ & _ & Hk)).
      unfold call_promise. rewrite Hc2, (Hk _ Hr1) by discriminate. reflexivity.
Qed.
End CallsFacts.

Section RequestClaims.
Context `{JsRuntime} `{Nuid}.

Lemma run_app w evs more : run w (evs ++ more) = run (run w evs) more.
Proof. unfold run. apply foldl_app. Qed.

Lemma reachable_run w evs : reachable w -> reachable (run w evs).
Proof.
  intros R. unfold run. apply foldl_preserved; [exact R|].
  intros x ev. apply reachable_step.
Qed.

Lemma reachable_open_is_connected w :
  reachable w -> isClosed (conn w) = false -> isDraining (conn w) = false ->
  state (protocol (conn w)) = CONNECTED.
Proof.
  intros R Hc Hd. destruct (reachable_ConnInv w R) as (_ & I2 & _).
  unfold isClosed, ProtocolHandler_isClosed in Hc.
  apply bool_decide_eq_false in Hc. unfold isDraining in Hd.
  destruct (state (protocol (conn w))); [reflexivity| |congruence].
  rewrite I2 in Hd by reflexivity. discriminate.
Qed.

(** A request that returned the promise of call [h] passed the three
    guards. *)
Lemma request_returned_race w subject timeoutMillis data h :
  snd (request w subject timeoutMillis data) = Returned (Promise_race h) ->
  exists s, subject = Some s /\ s <> ""
            /\ isClosed (conn w) = false /\ isDraining (conn w) = false
            /\ h = length (calls w).
Proof.
  unfold request.
  destruct (isClosed (conn w)); [discriminate|].
  destruct (isDraining (conn w)); [discriminate|].
  destruct subject as [[|a s]|]; try discriminate.
  intros E. exists (String a s). repeat split; try congruence.
  revert E. cbn [default from_option id String.length Nat.eqb new_Request].
  match goal with
  | |- context [publish ?nc ?s ?d ?r] => destruct (publish nc s d r) as [nc' res]
  end.
  destruct res; cbn; intros E; [|discriminate E].
  injection E as <-. reflexivity.
Qed.

Lemma publish_connected nc subject data reply :
  state (protocol nc) = CONNECTED -> subject <> "" ->
  snd (publish nc (Some subject) data reply) = Returned tt.
Proof.
  intros Hs Hne. unfold publish, ProtocolHandler_publish.
  destruct subject as [|a s]; [congruence|]. cbn. rewrite Hs. reflexivity.
Qed.

Lemma request_connected w subject timeoutMillis data :
  state (protocol (conn w)) = CONNECTED -> isDraining (conn w) = false ->
  subject <> "" ->
  snd (request w (Some subject) timeoutMillis data)
  = Returned (Promise_race (length (calls w))).
Proof.
  intros Hs Hd Hne. unfold request, isClosed, ProtocolHandler_isClosed.
  rewrite Hs, Hd. rewrite bool_decide_eq_false_2 by discriminate.
  destruct subject as [|a s]; [congruence|].
  cbn [default from_option id String.length Nat.eqb new_Request].
  match goal with
  | |- context [publish ?nc (Some ?s) ?d ?r] =>
      assert (P : snd (publish nc (Some s) d r) = Returned tt)
        by (apply publish_connected; [exact Hs|discriminate]);
      destruct (publish nc (Some s) d r) as [nc' res]
  end.
  cbn in P. subst res. reflexivity.
Qed.

Hypothesis nuid_fresh : forall i j, nuid_next i = nuid_next j -> i = j.


Lemma settles_no_reply tok dl t ev :
  is_reply tok ev = false ->
  settles tok dl t ev = Pending
  \/ (ev = Tick /\ (dl <= S t)%nat
      /\ settles tok dl t ev = Rejected (errorForCode TIMEOUT)).
Proof.
  destruct ev; cbn; intros Hr; auto.
  - apply bool_decide_eq_false in Hr. rewrite decide_False by exact Hr. auto.
  - apply bool_decide_eq_false in Hr. rewrite decide_False by exact Hr. auto.
  - destruct (dl <=? S t)%nat eqn:E; auto.
    apply Nat.leb_le in E. auto.
Qed.

Lemma outcome_timeout_iff tok dl evs : forall t,
  outcome tok dl t evs = Rejected (errorForCode TIMEOUT)
  <-> exists pre post,
        evs = (pre ++ Tick :: post)%list /\ no_reply tok pre
        /\ (dl <= S (t + ticks pre))%nat.
Proof.
  induction evs as [|ev evs IH]; intros t; cbn [outcome].
  - split; [discriminate|].
    intros (pre & post & E & _). destruct pre; discriminate E.
  - split.
    + intros Ho.
      assert (Hrec : outcome tok dl (clock t ev) evs = Rejected (errorForCode TIMEOUT)
                     -> is_reply tok ev = false ->
                     exists pre post,
                       (ev :: evs = pre ++ Tick :: post)%list /\ no_reply tok pre
                       /\ (dl <= S (t + ticks pre))%nat).
      { intros Ho' Hnr. apply IH in Ho'. destruct Ho' as (pre & post & -> & Hn & Hd).
        exists (ev :: pre), post. split; [reflexivity|].
        split; [constructor; assumption|].
        destruct ev; cbn [clock ticks] in *; lia. }
      destruct ev; cbn [settles] in Ho; try (apply Hrec; [exact Ho|reflexivity]).
      * case_decide; [discriminate Ho|]. apply Hrec; [exact Ho|].
        cbn. apply bool_decide_eq_false. assumption.
      * case_decide; [discriminate Ho|]. apply Hrec; [exact Ho|].
        cbn. apply bool_decide_eq_false. assumption.
      * destruct (dl <=? S t)%nat eqn:E; [|apply Hrec; [exact Ho|reflexivity]].
        apply Nat.leb_le in E. exists [], evs.
        split; [reflexivity|]. split; [constructor|]. cbn. lia.
    + intros (pre & post & E & Hn & Hd).
      destruct pre as [|ev' pre].
      * cbn in E. injection E as -> ->. cbn [settles].
        cbn in Hd. rewrite Nat.add_0_r in Hd.
        apply Nat.leb_le in Hd. rewrite Hd. reflexivity.
      * cbn in E. injection E as <- ->.
        apply Forall_cons in Hn. destruct Hn as [Hr Hn].
        destruct (settles_no_reply tok dl t ev Hr) as [-> | (_ & _ & ->)];
          [|reflexivity].
        apply IH. exists pre, post. split; [reflexivity|]. split; [exact Hn|].
        destruct ev; cbn [clock ticks] in *; lia.
Qed.

Lemma outcome_no_reply tok evs : forall t d,
  no_reply tok evs -> (0 < d)%nat ->
  outcome tok (t + d) t evs
  = if (ticks evs <? d)%nat then Pending else Rejected (errorForCode TIMEOUT).
Proof.
  induction evs as [|ev evs IH]; intros t d Hn Hd.
  - cbn. destruct d; [lia|reflexivity].
  - apply Forall_cons in Hn. destruct Hn as [Hr Hn]. cbn [outcome].
    assert (Hskip : settles tok (t + d) t ev = Pending -> clock t ev = t ->
                    ticks (ev :: evs) = ticks evs ->
                    match settles tok (t + d) t ev with
                    | Pending => outcome tok (t + d) (clock t ev) evs
                    | p => p
                    end
                    = if (ticks (ev :: evs) <? d)%nat then Pending
                      else Rejected (errorForCode TIMEOUT)).
    { intros -> -> ->. apply IH; assumption. }
    destruct ev; try (apply Hskip; reflexivity).
    + apply Hskip; try reflexivity. cbn in *.
      apply bool_decide_eq_false in Hr. rewrite decide_False by exact Hr.
      reflexivity.
    + apply Hskip; try reflexivity. cbn in *.
      apply bool_decide_eq_false in Hr. rewrite decide_False by exact Hr.
      reflexivity.
    + cbn [settles clock ticks].
      destruct (t + d <=? S t)%nat eqn:E.
      * apply Nat.leb_le in E.
        destruct (S (ticks evs) <? d)%nat eqn:E'; [|reflexivity].
        apply Nat.ltb_lt in E'. lia.
      * apply Nat.leb_gt in E.
        replace (t + d) with (S t + (d - 1)) by lia.
        rewrite IH by (auto; lia).
        destruct (ticks evs <? d - 1)%nat eqn:E1;
          destruct (S (ticks evs) <? d)%nat eqn:E2; try reflexivity.
        -- apply Nat.ltb_lt in E1. apply Nat.ltb_ge in E2. lia.
        -- apply Nat.ltb_ge in E1. apply Nat.ltb_lt in E2. lia.
Qed.

(** A settled request is out of reach: no event changes its object. *)
Lemma settled_frozen_step w ev h c :
  CallsInv w -> calls w !! h = Some c -> settled_call w c ->
  calls (step w ev) !! h = Some c.
Proof.
  intros I Hc (_ & Ha & Hm).
  assert (Hdisp : forall tok res,
             calls (MuxSubscription_dispatch w tok res) !! h = Some c).
  { intros tok res. rewrite (dispatch_lookup w tok res h c I Hc).
    rewrite decide_False; [reflexivity|].
    intros Hk. destruct (ci_mux w I tok h Hk) as (c' & Hc' & Ht).
    congruence. }
  destruct ev; cbn [step]; try exact Hc; try apply Hdisp.
  - apply request_lookup, Hc.
  - rewrite (tick_lookup w h c Hc). unfold due. rewrite Ha. reflexivity.
Qed.

Lemma settled_of_promise w h c p :
  CallsInv w -> calls w !! h = Some c -> raced c = Some p -> p <> Pending ->
  settled_call w c.
Proof.
  intros I Hc Hr Hp.
  destruct (ci_call w I h c Hc) as [(Hr' & _) | [S | O]];
    [congruence|exact S|congruence].
Qed.

Lemma settled_frozen_run evs w h c :
  CallsInv w -> calls w !! h = Some c -> settled_call w c ->
  calls (run w evs) !! h = Some c.
Proof.
  revert w. induction evs as [|ev evs IH]; intros w I Hc S; [exact Hc|].
  cbn [run foldl]. fold (run (step w ev) evs).
  pose proof (settled_frozen_step w ev h c I Hc S) as Hc1.
  apply IH; [apply CallsInv_step; assumption|exact Hc1|].
  destruct S as ((p & Hr & Hp) & _).
  eapply settled_of_promise; eauto. apply CallsInv_step; assumption.
Qed.

(** The request object an accepted call leaves on the heap. *)
Lemma request_pending w subject timeoutMillis data h :
  reachable w ->
  snd (request w subject timeoutMillis data) = Returned (Promise_race h) ->
  let w1 := fst (request w subject timeoutMillis data) in
  CallsInv w1 /\ now w1 = now w
  /\ exists c, calls w1 !! h = Some c /\ pending_call w1 h c
               /\ token (req c) = call_token w1 h
               /\ timeout (req c) = default 1000 timeoutMillis
               /\ deadline (req c) = now w + default 1000 timeoutMillis.
Proof.
  intros R Hret w1.
  destruct (request_returned_race w subject timeoutMillis data h Hret)
    as (s & -> & Hs & Hc & Hd & ->).
  pose proof (reachable_CallsInv nuid_fresh w R) as I.
  pose proof (CallsInv_request nuid_fresh w (Some s) timeoutMillis data I) as I1.
  destruct (request_accepted w s timeoutMillis data Hc Hd Hs)
    as (_ & Enow & _ & [(Ec & _) | (_ & e & He)]);
    [|rewrite Hret in He; discriminate].
  fold w1 in I1, Enow, Ec.
  split; [exact I1|]. split; [exact Enow|].
  eexists. 
  assert (Hl : calls w1 !! length (calls w)
               = Some {| req := {| token := nuid_next (nuid w);
                                   timeout := default 1000 timeoutMillis;
                                   deadline := now w + default 1000 timeoutMillis;
                                   armed := true; timer := Pending;
                                   deferred := Pending |};
                         raced := Some Pending |}).
  { rewrite Ec. apply list_lookup_middle. reflexivity. }
  split; [exact Hl|].
  split.
  { destruct (ci_call w1 I1 _ _ Hl) as [P | [((p & Hp & Hnp) & _) | O]];
      [exact P| |discriminate O].
    cbn in Hp. congruence. }
  unfold call_token. rewrite Hl. cbn. auto.
Qed.

(** C3.  A request that was accepted rejects with TIMEOUT if and only
    if its deadline is reached with no reply for its token before it;
    once its promise is settled, by the first matching reply or by the
    timeout, the request never changes again, so after a timeout no
    resolution ever occurs; and a rejection of the promise leaves the
    request cancelled, its entry removed from the mux and its timer
    stopped. *)
Theorem request_times_out_iff_no_reply w subject timeoutMillis data h evs :
  reachable w ->
  snd (request w subject timeoutMillis data) = Returned (Promise_race h) ->
  let w1 := fst (request w subject timeoutMillis data) in
  let tok := call_token w1 h in
  let dl := now w + default 1000 timeoutMillis in
  let p := call_promise (run w1 evs) h in
  (p = Rejected (errorForCode TIMEOUT)
   <-> exists pre post,
         evs = (pre ++ Tick :: post)%list /\ no_reply tok pre
         /\ (dl <= S (now w + ticks pre))%nat)
  /\ (p <> Pending ->
      forall more, calls (run w1 (evs ++ more)) !! h = calls (run w1 evs) !! h)
  /\ (p = Rejected (errorForCode TIMEOUT) ->
      forall more m, call_promise (run w1 (evs ++ more)) h <> Fulfilled m)
  /\ (forall e, p = Rejected e ->
      mux_reqs (run w1 evs) !! tok = None
      /\ exists c, calls (run w1 evs) !! h = Some c /\ armed (req c) = false).
Proof.
  intros R Hret w1 tok dl p.
  destruct (request_pending w subject timeoutMillis data h R Hret)
    as (I1 & Enow & c & Hc & P & Et & _ & Ed).
  fold w1 in I1, Enow, Hc, P, Et. fold tok in Et.
  assert (Ep : p = outcome tok dl (now w) evs).
  { unfold p. rewrite (run_outcome nuid_fresh evs w1 h c I1 Hc P).
    rewrite Et, Ed, Enow. reflexivity. }
  pose proof (CallsInv_run nuid_fresh w1 evs I1) as I2.
  destruct (run_evolves nuid_fresh evs w1 h c I1 Hc) as (c2 & Hc2 & (Et2 & _)).
  assert (Hset : p <> Pending -> settled_call (run w1 evs) c2).
  { intros Hp. apply (settled_of_promise (run w1 evs) h c2 p I2 Hc2); [|exact Hp].
    unfold p, call_promise in *. rewrite Hc2 in *.
    destruct (raced c2); [reflexivity|]. cbn in Hp. congruence. }
  assert (Hfrozen : p <> Pending ->
            forall more, calls (run w1 (evs ++ more)) !! h = calls (run w1 evs) !! h).
  { intros Hp more. rewrite run_app, Hc2.
    apply (settled_frozen_run more (run w1 evs) h c2 I2 Hc2 (Hset Hp)). }
  split; [rewrite Ep; apply outcome_timeout_iff|].
  split; [exact Hfrozen|].
  split.
  - intros Hp more m. unfold call_promise.
    rewrite Hfrozen by (rewrite Hp; discriminate).
    fold (call_promise (run w1 evs) h). fold p. rewrite Hp. discriminate.
  - intros e Hp.
    destruct (Hset ltac:(rewrite Hp; discriminate)) as (_ & Ha & Hm).
    split; [rewrite <- Et, <- Et2; exact Hm|]. eauto.
Qed.

(** C10.  A request made without a timeout argument gets the default
    of 1000 milliseconds as its timeout, its deadline being 1000
    milliseconds after the call; with no reply for its token, its
    promise is pending for as long as fewer than 1000 milliseconds
    have passed and rejected with TIMEOUT from then on. *)
Theorem request_default_timeout w subject data h evs :
  reachable w ->
  snd (request w subject None data) = Returned (Promise_race h) ->
  let w1 := fst (request w subject None data) in
  (exists c, calls w1 !! h = Some c /\ timeout (req c) = 1000
             /\ deadline (req c) = now w + 1000 /\ armed (req c) = true)
  /\ (no_reply (call_token w1 h) evs ->
      call_promise (run w1 evs) h
      = if (ticks evs <? 1000)%nat then Pending
        else Rejected (errorForCode TIMEOUT)).
Proof.
  intros R Hret w1.
  destruct (request_pending w subject None data h R Hret)
    as (I1 & Enow & c & Hc & P & Et & Eto & Ed).
  fold w1 in I1, Enow, Hc, P, Et.
  split.
  - exists c. destruct P as (_ & _ & _ & Ha & _). auto.
  - intros Hn.
    rewrite (run_outcome nuid_fresh evs w1 h c I1 Hc P).
    rewrite Et, Ed, Enow. cbn [default from_option id].
    apply outcome_no_reply; [exact Hn|lia].
Qed.
End RequestClaims.

Section ClosingClaims.
Context `{JsRuntime} `{Nuid}.

Lemma view_closed w w' : view w' = view w -> closed (conn w') = closed (conn w).
Proof. unfold view. congruence. Qed.

Lemma view_state w w' :
  view w' = view w -> state (protocol (conn w')) = state (protocol (conn w)).
Proof. unfold view. congruence. Qed.

(** What an event does to the [closed()] promise and to the state. *)
Lemma closed_step w ev :
  closed (conn (step w ev))
  = match closes (state (protocol (conn w))) ev with
    | Some r =>
        {| promise_id := promise_id (closed (conn w));
           promise_state := resolve (promise_state (closed (conn w))) r |}
    | None => closed (conn w)
    end
  /\ (state (protocol (conn (step w ev))) = CLOSED
      <-> state (protocol (conn w)) = CLOSED
          \/ closes (state (protocol (conn w))) ev <> None).
Proof.
  assert (Hv : view (step w ev) = view w ->
               closes (state (protocol (conn w))) ev = None ->
               closed (conn (step w ev))
               = match closes (state (protocol (conn w))) ev with
                 | Some r =>
                     {| promise_id := promise_id (closed (conn w));
                        promise_state := resolve (promise_state (closed (conn w))) r |}
                 | None => closed (conn w)
                 end
               /\ (state (protocol (conn (step w ev))) = CLOSED
                   <-> state (protocol (conn w)) = CLOSED
                       \/ closes (state (protocol (conn w))) ev <> None)).
  { intros V E. rewrite E, (view_closed _ _ V), (view_state _ _ V).
    split; [reflexivity|]. tauto. }
  destruct ev.
  - apply Hv; [|reflexivity]. cbn [step].
    pose proof (publish_view (conn w) subject data reply) as (V1 & V2 & V3 & _).
    unfold view. cbn. rewrite V1, V2, V3. reflexivity.
  - apply Hv; [|reflexivity]. cbn [step].
    pose proof (subscribe_view (conn w) subject opts) as (V1 & V2 & V3 & _).
    unfold view. cbn. rewrite V1, V2, V3. reflexivity.
  - apply Hv; [apply request_view|reflexivity].
  - cbn [step closes]. unfold drain, isClosed, ProtocolHandler_isClosed,
      ProtocolHandler_drain, closed. cbn.
    case_bool_decide as Hc; cbn; [tauto|].
    destruct (isDraining (conn w)); cbn; [tauto|].
    destruct (state (protocol (conn w))) eqn:Hs; cbn; rewrite ?Hs;
      split; try reflexivity; split; intros; try tauto; try congruence.
  - cbn [step closes]. unfold close, ProtocolHandler_close,
      ProtocolHandler_shutdown, closed. cbn.
    destruct (state (protocol (conn w))) eqn:Hs; cbn; rewrite ?Hs;
      split; try reflexivity; split; intros; auto; try tauto;
      right; discriminate.
  - apply Hv; [apply dispatch_view|reflexivity].
  - apply Hv; [apply dispatch_view|reflexivity].
  - apply Hv; [apply tick_view|reflexivity].
  - cbn [step closes]. unfold ProtocolHandler_drained,
      ProtocolHandler_shutdown, closed. cbn.
    destruct (state (protocol (conn w))) eqn:Hs; cbn; rewrite ?Hs; cbn;
      split; try reflexivity; split; intros; auto; try tauto;
      try (right; discriminate).
  - cbn [step closes]. unfold ProtocolHandler_shutdown, closed. cbn.
    destruct (state (protocol (conn w))) eqn:Hs; cbn; rewrite ?Hs;
      split; try reflexivity; split; intros; auto; try tauto;
      right; discriminate.
Qed.

Lemma isClosed_state nc : isClosed nc = true <-> state (protocol nc) = CLOSED.
Proof. unfold isClosed, ProtocolHandler_isClosed. apply bool_decide_eq_true. Qed.

Lemma isClosed_false nc : isClosed nc = false <-> state (protocol nc) <> CLOSED.
Proof. unfold isClosed, ProtocolHandler_isClosed. apply bool_decide_eq_false. Qed.

Lemma closed_id_run w evs :
  promise_id (closed (conn (run w evs))) = promise_id (closed (conn w)).
Proof.
  unfold run.
  apply (foldl_preserved
           (fun x => promise_id (closed (conn x)) = promise_id (closed (conn w))));
    [reflexivity|].
  intros x ev Hx. destruct (closed_step x ev) as [-> _].
  destruct (closes _ ev); exact Hx.
Qed.

Lemma fulfilled_run w evs r :
  promise_state (closed (conn w)) = Fulfilled r ->
  promise_state (closed (conn (run w evs))) = Fulfilled r.
Proof.
  intros Hr. unfold run.
  apply (foldl_preserved
           (fun x => promise_state (closed (conn x)) = Fulfilled r));
    [exact Hr|].
  intros x ev Hx. destruct (closed_step x ev) as [-> _].
  destruct (closes _ ev); [|exact Hx]. cbn. rewrite Hx. reflexivity.
Qed.

Lemma open_is_pending w :
  reachable w -> isClosed (conn w) = false ->
  promise_state (closed (conn w)) = Pending.
Proof.
  intros R Hc. destruct (reachable_ConnInv w R) as (_ & _ & _ & I4).
  apply I4, isClosed_false, Hc.
Qed.

Lemma closes_with_error st ev e :
  closes st ev = Some (Some e) -> ev = Fatal e.
Proof.
  destruct ev; cbn; try discriminate; case_decide; try discriminate.
  congruence.
Qed.

(** A closure carries an error only if a fatal error made it. *)
Lemma error_only_if_fatal evs : forall w e,
  reachable w -> isClosed (conn w) = false ->
  promise_state (closed (conn (run w evs))) = Fulfilled (Some e) ->
  exists pre post,
    evs = (pre ++ Fatal e :: post)%list /\ isClosed (conn (run w pre)) = false.
Proof.
  induction evs as [|ev evs IH]; intros w e R Hc Hf.
  - cbn in Hf. rewrite (open_is_pending w R Hc) in Hf. discriminate.
  - cbn [run foldl] in Hf. fold (run (step w ev) evs) in Hf.
    destruct (closed_step w ev) as [Ecl Est].
    destruct (closes (state (protocol (conn w))) ev) as [r|] eqn:Ecloses.
    + assert (Hr : promise_state (closed (conn (step w ev))) = Fulfilled r).
      { rewrite Ecl. cbn. rewrite (open_is_pending w R Hc). reflexivity. }
      rewrite (fulfilled_run (step w ev) evs r Hr) in Hf.
      injection Hf as ->.
      apply closes_with_error in Ecloses. subst ev.
      exists [], evs. split; [reflexivity|exact Hc].
    + assert (Hc1 : isClosed (conn (step w ev)) = false).
      { apply isClosed_false. rewrite Est. apply isClosed_false in Hc.
        intros [?|?]; congruence. }
      destruct (IH (step w ev) e (reachable_step w ev R) Hc1 Hf)
        as (pre & post & -> & Hpre).
      exists (ev :: pre), post. split; [reflexivity|exact Hpre].
Qed.

(** A fatal error on a connection that is still open resolves the
    promise with that error. *)
Lemma fatal_gives_error w pre post e :
  reachable w -> isClosed (conn (run w pre)) = false ->
  promise_state (closed (conn (run w (pre ++ Fatal e :: post))))
  = Fulfilled (Some e).
Proof.
  intros R Hc. rewrite run_app. cbn [run foldl].
  fold (run (step (run w pre) (Fatal e)) post).
  apply fulfilled_run.
  destruct (closed_step (run w pre) (Fatal e)) as [-> _]. cbn [closes].
  rewrite decide_False by (apply isClosed_false, Hc). cbn.
  rewrite (open_is_pending (run w pre)); [reflexivity| |exact Hc].
  apply reachable_run, R.
Qed.

(** C8.  [close] is idempotent and closing is observed uniformly.
    Every call to [closed()] returns the same promise; the promise is
    pending while the connection is open and fulfilled once it is
    closed, and once fulfilled it keeps its result through whatever
    follows, further calls of [close] included; the result is an
    error exactly when a fatal error closed the connection, and void
    otherwise. *)
Theorem closed_resolves_once w evs :
  reachable w ->
  promise_id (closed (conn (run w evs))) = promise_id (closed (conn w))
  /\ (forall r, promise_state (closed (conn w)) = Fulfilled r ->
                promise_state (closed (conn (run w evs))) = Fulfilled r)
  /\ (isClosed (conn w) = true
      <-> exists r, promise_state (closed (conn w)) = Fulfilled r)
  /\ (isClosed (conn w) = false <-> promise_state (closed (conn w)) = Pending)
  /\ (isClosed (conn w) = false ->
      forall e,
        promise_state (closed (conn (run w evs))) = Fulfilled (Some e)
        <-> exists pre post,
              evs = (pre ++ Fatal e :: post)%list
              /\ isClosed (conn (run w pre)) = false)
  /\ close (close (conn w)) = close (conn w)
  /\ step (step w Call_close) Call_close = step w Call_close.
Proof.
  intros R.
  destruct (reachable_ConnInv w R) as (_ & _ & I3 & I4).
  split; [apply closed_id_run|].
  split; [intros r; apply fulfilled_run|].
  split.
  { split.
    - intros Hc. apply I3, isClosed_state, Hc.
    - intros (r & Hr). apply isClosed_state.
      destruct (decide (state (protocol (conn w)) = CLOSED)) as [E|E]; [exact E|].
      cbn in I4. rewrite (I4 E) in Hr. discriminate. }
  split.
  { split.
    - apply open_is_pending, R.
    - intros Hp. apply isClosed_false. intros E.
      destruct (I3 E) as (r & Hr). cbn in Hr. congruence. }
  split.
  { intros Hc e. split.
    - apply error_only_if_fatal; assumption.
    - intros (pre & post & -> & Hpre). apply fatal_gives_error; assumption. }
  assert (Hidem : forall nc, close (close nc) = close nc).
  { intros nc. unfold close, ProtocolHandler_close, ProtocolHandler_shutdown.
    destruct nc as [o ph d]. cbn.
    destruct (state ph) eqn:Hs; cbn; rewrite ?Hs; reflexivity. }
  split; [apply Hidem|].
  cbn [step]. unfold set_conn. cbn. rewrite Hidem. reflexivity.
Qed.
End ClosingClaims.

Section HeaderFacts.
Import NatsHeaders.

(** ** Strings *)

Lemma append_cons x (a b : string) : String x a ++ b = String x (a ++ b).
Proof. reflexivity. Qed.

Lemma append_assoc (a b c : string) : (a ++ b) ++ c = a ++ (b ++ c).
Proof.
  induction a as [|x a IH]; [reflexivity|].
  rewrite !append_cons, IH. reflexivity.
Qed.

Lemma all_chars_app f a b :
  all_chars f (a ++ b) = all_chars f a && all_chars f b.
Proof.
  induction a as [|x a IH]; [reflexivity|].
  rewrite append_cons. cbn [all_chars]. rewrite IH. apply andb_assoc.
Qed.

Lemma all_chars_impl (f g : ascii -> bool) s :
  (forall c, f c = true -> g c = true) ->
  all_chars f s = true -> all_chars g s = true.
Proof.
  intros Hfg. induction s as [|x s IH]; cbn; [reflexivity|].
  intros Hx. apply andb_true_iff in Hx. destruct Hx as [Hx Hs].
  rewrite (Hfg x Hx), (IH Hs). reflexivity.
Qed.

Lemma all_chars_In f s :
  all_chars f s = true <-> forall c, In c (list_ascii_of_string s) -> f c = true.
Proof.
  induction s as [|x s IH]; cbn.
  - split; [intros _ c []|reflexivity].
  - rewrite andb_true_iff, IH. split.
    + intros [Hx Hs] c [<-|Hc]; auto.
    + intros Hall. split; [apply Hall; auto|]. intros c Hc. apply Hall. auto.
Qed.

Lemma key_char_not x :
  key_char x = false -> forall c, key_char c = true -> not_char x c = true.
Proof.
  intros Hx c Hc. unfold not_char.
  destruct (Ascii.eqb_spec c x) as [->|]; [congruence|reflexivity].
Qed.

Lemma value_char_not_CR c : value_char c = true -> not_char CR c = true.
Proof.
  unfold value_char, not_char. intros Hc.
  apply negb_true_iff, orb_false_iff in Hc. destruct Hc as [-> _]. reflexivity.
Qed.

(** ** Reading back what [encode] wrote *)

Lemma split_crlf_line l s :
  all_chars (not_char CR) l = true ->
  split_crlf (l ++ CRLF ++ s) = l :: split_crlf s.
Proof.
  induction l as [|x l IH]; intros Hl.
  - reflexivity.
  - cbn in Hl. apply andb_true_iff in Hl. destruct Hl as [Hx Hl].
    rewrite append_cons. cbn [split_crlf]. rewrite (IH Hl).
    unfold not_char in Hx. apply negb_true_iff in Hx. rewrite Hx. reflexivity.
Qed.

Lemma break_colon_line k rest :
  all_chars (not_char ":") k = true ->
  break_colon (k ++ String ":" rest) = Some (k, rest).
Proof.
  induction k as [|x k IH]; intros Hk.
  - reflexivity.
  - cbn in Hk. apply andb_true_iff in Hk. destruct Hk as [Hx Hk].
    rewrite append_cons. cbn [break_colon]. rewrite (IH Hk).
    unfold not_char in Hx. apply negb_true_iff in Hx. rewrite Hx. reflexivity.
Qed.

Lemma line_not_empty k v : String.eqb (k ++ ": " ++ v) "" = false.
Proof. destruct k; reflexivity. Qed.

Lemma line_no_CR k v :
  validKey k = true -> validValue v = true ->
  all_chars (not_char CR) (k ++ ": " ++ v) = true.
Proof.
  intros Hk Hv. rewrite !all_chars_app.
  rewrite (all_chars_impl key_char (not_char CR) k); [|apply key_char_not; reflexivity|exact Hk].
  rewrite (all_chars_impl value_char (not_char CR) v); [|apply value_char_not_CR|exact Hv].
  reflexivity.
Qed.

Lemma split_crlf_lines kvs :
  Forall (fun kv => validKey (fst kv) = true /\ validValue (snd kv) = true) kvs ->
  split_crlf (write_lines kvs ++ CRLF)
  = (map header_line kvs ++ [""; ""])%list.
Proof.
  induction 1 as [|kv kvs [Hk Hv] _ IH]; [reflexivity|].
  cbn [write_lines map]. unfold line.
  rewrite !append_assoc.
  rewrite split_crlf_line by (apply line_no_CR; assumption).
  rewrite IH. reflexivity.
Qed.

Lemma parse_written_lines kvs : forall acc,
  Forall (fun kv => validKey (fst kv) = true /\ validValue (snd kv) = true) kvs ->
  parse_lines (map header_line kvs ++ [""; ""])%list acc
  = Returned
      (foldl (fun acc kv => add_value acc (canonicalMIMEHeaderKey (fst kv)) (snd kv))
         acc kvs).
Proof.
  induction kvs as [|[k v] kvs IH]; intros acc Hall; [reflexivity|].
  apply Forall_cons in Hall. destruct Hall as [[Hk Hv] Hall].
  cbn [fst snd] in Hk, Hv.
  cbn [map app parse_lines foldl]. unfold header_line. cbn [fst snd].
  rewrite line_not_empty.
  change (k ++ ": " ++ v) with (k ++ String ":" (String " " v)).
  rewrite break_colon_line
    by (apply (all_chars_impl key_char); [apply key_char_not; reflexivity|exact Hk]).
  change (strip_space (String " " v)) with v.
  unfold append at 1. rewrite Hk, Hv. cbn [andb].
  apply IH, Hall.
Qed.

Lemma decode_encode h :
  valid h -> decode (encode h) = Returned (canonicalize h).
Proof.
  intros Hv. unfold decode, encode, TextEncoder_encode, toString.
  rewrite string_of_list_byte_of_string.
  rewrite split_crlf_line by reflexivity.
  rewrite split_crlf_lines by exact Hv.
  rewrite String.eqb_refl. apply parse_written_lines, Hv.
Qed.

(** ** Canonical keys *)

Lemma case_idem c :
  to_upper (to_upper c) = to_upper c /\ to_lower (to_lower c) = to_lower c
  /\ Ascii.eqb (to_upper c) "-" = Ascii.eqb c "-"
  /\ Ascii.eqb (to_lower c) "-" = Ascii.eqb c "-".
Proof.
  destruct c as [[] [] [] [] [] [] [] []]; repeat split; reflexivity.
Qed.

Lemma title_case_idem s : forall b,
  title_case b (title_case b s) = title_case b s.
Proof.
  induction s as [|c s IH]; intros b; [reflexivity|].
  cbn [title_case].
  destruct (case_idem c) as (U & L & Hu & Hl).
  destruct b; rewrite ?U, ?L, ?Hu, ?Hl, IH; reflexivity.
Qed.

Lemma canonical_idem k :
  canonicalMIMEHeaderKey (canonicalMIMEHeaderKey k) = canonicalMIMEHeaderKey k.
Proof. apply title_case_idem. Qed.

Lemma values_canonical h k : values h (canonicalMIMEHeaderKey k) = values h k.
Proof. unfold values. rewrite canonical_idem. reflexivity. Qed.

(** ** Maps built through the interface are their own canonical form *)

Lemma add_value_new acc k v :
  ~ In k (map fst acc) -> add_value acc k v = (acc ++ [(k, [v])])%list.
Proof.
  induction acc as [|[k' vs] acc IH]; intros Hk; [reflexivity|].
  cbn [add_value]. cbn in Hk.
  destruct (String.eqb_spec k' k) as [->|Hne]; [tauto|].
  rewrite IH by tauto. reflexivity.
Qed.

Lemma add_value_last acc k ws v :
  ~ In k (map fst acc) ->
  add_value (acc ++ [(k, ws)])%list k v = (acc ++ [(k, (ws ++ [v])%list)])%list.
Proof.
  induction acc as [|[k' vs] acc IH]; intros Hk.
  - cbn. rewrite String.eqb_refl. reflexivity.
  - cbn [add_value app]. cbn in Hk.
    destruct (String.eqb_spec k' k) as [->|Hne]; [tauto|].
    rewrite IH by tauto. reflexivity.
Qed.

Lemma add_values_last vs : forall acc k ws,
  ~ In k (map fst acc) -> canonicalMIMEHeaderKey k = k ->
  foldl (fun acc kv => add_value acc (canonicalMIMEHeaderKey (fst kv)) (snd kv))
    (acc ++ [(k, ws)])%list (map (fun v => (k, v)) vs)
  = (acc ++ [(k, (ws ++ vs)%list)])%list.
Proof.
  induction vs as [|v vs IH]; intros acc k ws Hk Hc.
  - cbn. rewrite app_nil_r. reflexivity.
  - cbn [map foldl fst snd]. rewrite Hc, add_value_last by exact Hk.
    rewrite IH by assumption. rewrite <- app_assoc. reflexivity.
Qed.

Lemma canonicalize_from h : forall acc,
  NoDup (map fst (acc ++ h)%list) ->
  Forall (fun e => canonicalMIMEHeaderKey (fst e) = fst e /\ snd e <> []) h ->
  foldl (fun acc kv => add_value acc (canonicalMIMEHeaderKey (fst kv)) (snd kv))
    acc (pairs h)
  = (acc ++ h)%list.
Proof.
  induction h as [|[k vs] h IH]; intros acc Hnd Hall.
  - cbn. rewrite app_nil_r. reflexivity.
  - apply Forall_cons in Hall. destruct Hall as [[Hc Hne] Hall].
    cbn [fst snd] in Hc, Hne.
    destruct vs as [|v vs]; [congruence|].
    assert (Hk : ~ In k (map fst acc)).
    { rewrite map_app in Hnd. cbn in Hnd.
      apply NoDup_app in Hnd. destruct Hnd as (_ & Hd & _).
      intros Hin. apply (Hd k); [apply list_elem_of_In; exact Hin|].
      apply list_elem_of_In. left. reflexivity. }
    unfold pairs. cbn [flat_map map]. fold (pairs h).
    rewrite <- app_comm_cons. cbn [foldl fst snd].
    rewrite foldl_app. rewrite Hc, add_value_new by exact Hk.
    rewrite add_values_last by assumption. cbn [app].
    rewrite IH; [|rewrite <- app_assoc; exact Hnd|exact Hall].
    rewrite <- app_assoc. reflexivity.
Qed.

Lemma canonicalize_normal h : normal h -> canonicalize h = h.
Proof.
  intros [Hnd Hall]. unfold canonicalize.
  rewrite (canonicalize_from h []); [reflexivity|exact Hnd|exact Hall].
Qed.


(** ** Validation *)

Lemma find_set_value h k v : find_values (set_value h k v) k = [v].
Proof.
  induction h as [|[k' vs] h IH]; cbn.
  - rewrite String.eqb_refl. reflexivity.
  - destruct (String.eqb_spec k' k) as [->|Hne]; cbn.
    + rewrite String.eqb_refl. reflexivity.
    + apply String.eqb_neq in Hne. rewrite Hne. exact IH.
Qed.

Lemma all_chars_false f s :
  all_chars f s = false <-> exists c, In c (list_ascii_of_string s) /\ f c = false.
Proof.
  induction s as [|x s IH]; cbn.
  - split; [discriminate|]. intros (c & [] & _).
  - rewrite andb_false_iff, IH. split.
    + intros [Hx | (c & Hc & Hf)]; eauto.
    + intros (c & [<-|Hc] & Hf); eauto.
Qed.

(** C5.  [set] refuses, with BAD_HEADER, a key that contains a colon,
    whitespace or a control byte and a value that contains CR or LF;
    for every other key and value it succeeds, and the value is then
    the one stored under the key. *)
Theorem set_validates (h : t) (k v : string) :
  ((exists c, In c (list_ascii_of_string k)
              /\ (c = ":"%char \/ is_whitespace c = true \/ is_control c = true))
   \/ (exists c, In c (list_ascii_of_string v) /\ (c = CR \/ c = LF)) ->
   set h k v = Thrown (errorForCode BAD_HEADER))
  /\ ((forall c, In c (list_ascii_of_string k) ->
                 c <> ":"%char /\ is_whitespace c = false /\ is_control c = false) ->
      (forall c, In c (list_ascii_of_string v) -> c <> CR /\ c <> LF) ->
      exists h', set h k v = Returned h' /\ values h' k = [v]).
Proof.
  split.
  - intros Hbad. unfold set.
    assert (Hf : validKey k && validValue v = false).
    { apply andb_false_iff.
      destruct Hbad as [(c & Hc & Hbad) | (c & Hc & Hbad)]; [left|right];
        apply all_chars_false; exists c; (split; [exact Hc|]).
      - unfold key_char. apply negb_false_iff.
        destruct Hbad as [-> | [Hw | Hctl]].
        + reflexivity.
        + rewrite Hw. apply orb_true_iff. left. apply orb_true_r.
        + rewrite Hctl. apply orb_true_r.
      - unfold value_char. apply negb_false_iff.
        destruct Hbad as [-> | ->]; reflexivity. }
    rewrite Hf. reflexivity.
  - intros Hk Hv. unfold set.
    assert (Ek : validKey k = true).
    { apply all_chars_In. intros c Hc. destruct (Hk c Hc) as (H1 & H2 & H3).
      unfold key_char. rewrite H2, H3.
      apply Ascii.eqb_neq in H1. rewrite H1. reflexivity. }
    assert (Ev : validValue v = true).
    { apply all_chars_In. intros c Hc. destruct (Hv c Hc) as (H1 & H2).
      unfold value_char.
      apply Ascii.eqb_neq in H1. apply Ascii.eqb_neq in H2.
      rewrite H1, H2. reflexivity. }
    rewrite Ek, Ev. cbn [andb]. eexists. split; [reflexivity|].
    unfold values. apply find_set_value.
Qed.
End HeaderFacts.

(** * Further properties *)

Section TrafficFacts.
Context `{JsRuntime} `{Nuid}.

(** ** Frame lemmas: what the requests in flight leave alone *)

Lemma Request_cancel_carried w h : carried (Request_cancel w h) = carried w.
Proof. unfold Request_cancel. case_match; reflexivity. Qed.

Lemma react_carried w h : carried (react w h) = carried w.
Proof.
  unfold react. repeat case_match; try reflexivity.
  rewrite Request_cancel_carried. reflexivity.
Qed.

Lemma Request_resolver_carried w h res :
  carried (Request_resolver w h res) = carried w.
Proof. unfold Request_resolver. case_match; reflexivity. Qed.

Lemma dispatch_carried w tok res :
  carried (MuxSubscription_dispatch w tok res) = carried w.
Proof.
  unfold MuxSubscription_dispatch. case_match; [|reflexivity].
  rewrite react_carried. apply Request_resolver_carried.
Qed.

Lemma fire_timer_carried w h : carried (fire_timer w h) = carried w.
Proof.
  unfold fire_timer. repeat case_match; try reflexivity.
  rewrite react_carried. reflexivity.
Qed.

Lemma tick_carried w : carried (tick w) = carried w.
Proof.
  unfold tick.
  apply (foldl_preserved (fun x => carried x = carried w)); [reflexivity|].
  intros x b Hx. rewrite fire_timer_carried. exact Hx.
Qed.

(** ** What a call hands over or registers *)

(** [publish] throws and leaves the connection as it was, or returns
    with its one frame handed over and nothing else touched. *)
Lemma publish_cases nc subject data reply :
  (exists e, publish nc subject data reply = (nc, Thrown e))
  \/ (exists s nc',
        subject = Some s /\ s <> "" /\ state (protocol nc) = CONNECTED
        /\ publish nc subject data reply = (nc', Returned tt)
        /\ outbound (protocol nc')
           = (outbound (protocol nc) ++
              [{| pub_subject := s;
                  pub_data := payload_bytes (options nc) data;
                  pub_reply := default "" reply |}])%list
        /\ subscriptions (protocol nc') = subscriptions (protocol nc)
        /\ muxSubscriptions (protocol nc') = muxSubscriptions (protocol nc)
        /\ options nc' = options nc).
Proof.
  unfold publish, ProtocolHandler_publish.
  destruct subject as [s|]; cbn [default from_option id];
    [|left; eexists; reflexivity].
  destruct (String.length s =? 0)%nat eqn:El; [left; eexists; reflexivity|].
  destruct nc as [o ph d]; cbn [protocol options].
  destruct (state ph) eqn:Es; [|left; eexists; reflexivity..].
  right. exists s. eexists. repeat split.
  intros ->. discriminate.
Qed.

Lemma subscribe_cases nc subject opts :
  (exists e, subscribe nc subject opts = (nc, Thrown e))
  \/ (exists s nc',
        subject = Some s /\ s <> ""
        /\ isClosed nc = false /\ isDraining nc = false
        /\ subscribe nc subject opts
           = (nc', Returned {| sub_subject := s; sub_opts := opts |})
        /\ subscriptions (protocol nc')
           = (subscriptions (protocol nc)
              ++ [{| sub_subject := s; sub_opts := opts |}])%list
        /\ outbound (protocol nc') = outbound (protocol nc)
        /\ muxSubscriptions (protocol nc') = muxSubscriptions (protocol nc)
        /\ options nc' = options nc).
Proof.
  unfold subscribe.
  destruct (isClosed nc); [left; eexists; reflexivity|].
  destruct (isDraining nc); [left; eexists; reflexivity|].
  destruct subject as [s|]; cbn [default from_option id];
    [|left; eexists; reflexivity].
  destruct (String.length s =? 0)%nat eqn:El; [left; eexists; reflexivity|].
  right. exists s. eexists. repeat split.
  intros ->. discriminate.
Qed.

Lemma set_conn_same w : set_conn w (conn w) = w.
Proof. destruct w; reflexivity. Qed.

(** A request leaves the world as it was, or hands one frame over. *)
Lemma request_carried w subject timeoutMillis data :
  let w' := fst (request w subject timeoutMillis data) in
  w' = w
  \/ (exists s f,
        subject = Some s /\ s <> ""
        /\ pub_subject f = s
        /\ carried w'
           = (options (conn w), (outbound_of w ++ [f])%list,
              subscriptions (protocol (conn w)),
              baseInbox (muxSubscriptions (protocol (conn w)))))
  \/ carried w' = carried w.
Proof.
  cbn zeta.
  destruct (request_cases w subject timeoutMillis data)
    as [E | (s & -> & Hs & Hc & Hd)]; [left; exact E|].
  right.
  unfold request. rewrite Hc, Hd. cbn [default from_option id].
  destruct (String.length s =? 0)%nat eqn:El.
  { destruct s; [congruence|discriminate]. }
  cbn [new_Request].
  match goal with
  | |- context [publish ?nc (Some s) data ?r] =>
      destruct (publish_cases nc (Some s) data r)
        as [(e & E) | (s' & nc' & Es & _ & _ & E & Eo & Esub & Em & Eopt)];
      rewrite E
  end.
  - right. reflexivity.
  - left. injection Es as <-. exists s. eexists. split; [reflexivity|].
    split; [exact Hs|]. split; cycle 1.
    + unfold carried, outbound_of. cbn.
      cbn in Eo, Esub, Em, Eopt. rewrite Eo, Esub, Em, Eopt. reflexivity.
    + reflexivity.
Qed.

End TrafficFacts.

Section TrafficProperties.
Context `{JsRuntime} `{Nuid}.

Lemma grows_by_nothing w w' : carried w' = carried w -> grows_by w w' [] [].
Proof.
  unfold grows_by. intros ->. rewrite !app_nil_r. reflexivity.
Qed.

Lemma step_traffic w ev :
  exists sent subs,
    grows_by w (step w ev) sent subs
    /\ length sent <= (if sends ev then 1 else 0)
    /\ length subs <= (if registers ev then 1 else 0)
    /\ Forall (fun f => pub_subject f <> "") sent
    /\ Forall (fun s => sub_subject s <> "") subs.
Proof.
  assert (Hnone : carried (step w ev) = carried w ->
            exists sent subs,
              grows_by w (step w ev) sent subs
              /\ length sent <= (if sends ev then 1 else 0)
              /\ length subs <= (if registers ev then 1 else 0)
              /\ Forall (fun f => pub_subject f <> "") sent
              /\ Forall (fun s => sub_subject s <> "") subs).
  { intros E. exists [], []. split; [apply grows_by_nothing, E|].
    cbn. repeat split; try lia; constructor. }
  destruct ev; cbn [step] in *.
  - destruct (publish_cases (conn w) subject data reply)
      as [(e & E) | (s & nc' & -> & Hs & _ & E & Eo & Esub & Em & Eopt)].
    + apply Hnone. rewrite E. cbn [fst]. rewrite set_conn_same. reflexivity.
    + rewrite E. cbn [fst]. eexists [_], []. split.
      * unfold grows_by, carried, outbound_of. cbn.
        rewrite Eo, Esub, Em, Eopt, app_nil_r. reflexivity.
      * cbn. repeat split; try lia; repeat constructor. exact Hs.
  - destruct (subscribe_cases (conn w) subject opts)
      as [(e & E) | (s & nc' & -> & Hs & _ & _ & E & Esub & Eo & Em & Eopt)].
    + apply Hnone. rewrite E. cbn [fst]. rewrite set_conn_same. reflexivity.
    + rewrite E. cbn [fst]. eexists [], [_]. split.
      * unfold grows_by, carried, outbound_of. cbn.
        rewrite Eo, Esub, Em, Eopt, app_nil_r. reflexivity.
      * cbn. repeat split; try lia; repeat constructor. exact Hs.
  - destruct (request_carried w subject timeoutMillis data)
      as [E | [(s & f & -> & Hs & Hf & E) | E]].
    + apply Hnone. rewrite E. reflexivity.
    + exists [f], []. split.
      * unfold grows_by. rewrite E, app_nil_r. reflexivity.
      * cbn. repeat split; try lia; repeat constructor. congruence.
    + apply Hnone, E.
  - apply Hnone. unfold drain, ProtocolHandler_drain.
    repeat case_match; try reflexivity; rewrite ?set_conn_same; reflexivity.
  - apply Hnone. unfold close, ProtocolHandler_close, ProtocolHandler_shutdown.
    repeat case_match; reflexivity.
  - apply Hnone, dispatch_carried.
  - apply Hnone, dispatch_carried.
  - apply Hnone, tick_carried.
  - apply Hnone. unfold ProtocolHandler_drained, ProtocolHandler_shutdown.
    repeat case_match; reflexivity.
  - apply Hnone. unfold ProtocolHandler_shutdown.
    repeat case_match; reflexivity.
Qed.

Lemma run_traffic evs : forall w,
  exists sent subs,
    grows_by w (run w evs) sent subs
    /\ length sent <= length (List.filter sends evs)
    /\ length subs <= length (List.filter registers evs)
    /\ Forall (fun f => pub_subject f <> "") sent
    /\ Forall (fun s => sub_subject s <> "") subs.
Proof.
  induction evs as [|ev evs IH]; intros w.
  - exists [], []. split; [apply grows_by_nothing; reflexivity|].
    cbn. repeat split; try lia; constructor.
  - destruct (step_traffic w ev) as (s1 & r1 & G1 & L1 & M1 & F1 & P1).
    destruct (IH (step w ev)) as (s2 & r2 & G2 & L2 & M2 & F2 & P2).
    exists (s1 ++ s2)%list, (r1 ++ r2)%list. split.
    + unfold grows_by in *. change (run w (ev :: evs)) with (run (step w ev) evs).
      rewrite G2. unfold carried in G1. injection G1 as -> -> -> ->.
      rewrite !app_assoc. reflexivity.
    + rewrite !length_app. cbn [List.filter].
      repeat split; try (apply Forall_app; split; assumption).
      * destruct (sends ev); cbn [length]; lia.
      * destruct (registers ev); cbn [length]; lia.
Qed.

(** X1: the frames handed to the protocol layer are never withdrawn
    or reordered; every call of [publish] or [request] adds at most
    one, nothing else adds any, and no frame has an empty subject. *)
Theorem outbound_only_grows w evs :
  exists sent,
    outbound_of (run w evs) = (outbound_of w ++ sent)%list
    /\ length sent <= length (List.filter sends evs)
    /\ Forall (fun f => pub_subject f <> "") sent.
Proof.
  destruct (run_traffic evs w) as (sent & subs & G & L & _ & F & _).
  exists sent. split; [|split; assumption].
  unfold grows_by, carried in G. congruence.
Qed.


(** The payload mode and the base inbox are those of [connect]. *)
Lemma run_fixed w evs :
  options (conn (run w evs)) = options (conn w)
  /\ baseInbox (muxSubscriptions (protocol (conn (run w evs))))
     = baseInbox (muxSubscriptions (protocol (conn w))).
Proof.
  destruct (run_traffic evs w) as (sent & subs & G & _).
  unfold grows_by, carried in G. split; congruence.
Qed.

(** X3: on a connected handler, publishes with a subject are handed
    over one frame each, in the order of the calls, with the payload
    of each converted on its own. *)
Theorem publishes_keep_order (ms : list (string * JsValue * option string)) :
  forall w,
  state (protocol (conn w)) = CONNECTED ->
  Forall (fun m => fst (fst m) <> "") ms ->
  outbound_of (run w (map publish_event ms))
  = (outbound_of w ++ map (frame_of (options (conn w))) ms)%list
  /\ state (protocol (conn (run w (map publish_event ms)))) = CONNECTED.
Proof.
  induction ms as [|[[s d] r] ms IH]; intros w Hst Hms.
  - cbn. rewrite app_nil_r. split; [reflexivity|exact Hst].
  - apply Forall_cons in Hms as [Hs Hms]. cbn [fst snd] in Hs.
    cbn [map]. change (run w (publish_event (s, d, r) :: map publish_event ms))
      with (run (step w (publish_event (s, d, r))) (map publish_event ms)).
    pose proof (publish_view (conn w) (Some s) d r) as (V1 & _ & _ & _ & V5).
    destruct (publish_cases (conn w) (Some s) d r)
      as [(e & E) | (s' & nc' & Es & _ & _ & E & Eo & _)].
    { pose proof (publish_connected (conn w) s d r Hst Hs) as R.
      rewrite E in R. discriminate. }
    injection Es as <-.
    rewrite E in V1, V5. cbn [fst] in V1, V5.
    destruct (IH (step w (publish_event (s, d, r)))) as [IH1 IH2].
    + cbn [step publish_event fst snd]. rewrite E. cbn. congruence.
    + exact Hms.
    + split; [|exact IH2]. rewrite IH1.
      unfold outbound_of. cbn [step publish_event fst snd]. rewrite E.
      cbn [fst set_conn conn]. rewrite Eo, V5, <- app_assoc. reflexivity.
Qed.

(** X4: on a connection that is neither closed nor draining,
    subscriptions with a subject are registered one entry each, in
    the order of the calls, each with the subject and the options it
    was given. *)
Theorem subscribes_keep_order (ss : list (string * SubscriptionOptions)) :
  forall w,
  isClosed (conn w) = false -> isDraining (conn w) = false ->
  Forall (fun s => fst s <> "") ss ->
  subscriptions (protocol (conn (run w (map subscribe_event ss))))
  = (subscriptions (protocol (conn w)) ++ map sub_of ss)%list
  /\ outbound_of (run w (map subscribe_event ss)) = outbound_of w.
Proof.
  induction ss as [|[s o] ss IH]; intros w Hc Hd Hss.
  - cbn. rewrite app_nil_r. split; reflexivity.
  - apply Forall_cons in Hss as [Hs Hss]. cbn [fst] in Hs.
    cbn [map].
    change (run w (subscribe_event (s, o) :: map subscribe_event ss))
      with (run (step w (subscribe_event (s, o))) (map subscribe_event ss)).
    pose proof (subscribe_view (conn w) (Some s) o) as (V1 & V2 & _).
    destruct (subscribe_cases (conn w) (Some s) o)
      as [(e & E) | (s' & nc' & Es & _ & _ & _ & E & Esub & Eo & _)].
    { unfold subscribe in E. rewrite Hc, Hd in E.
      cbn [default from_option id] in E.
      destruct (String.length s =? 0)%nat eqn:El; [|discriminate].
      destruct s; [congruence|discriminate]. }
    injection Es as <-.
    rewrite E in V1, V2. cbn [fst] in V1, V2.
    destruct (IH (step w (subscribe_event (s, o)))) as [IH1 IH2].
    + cbn [step subscribe_event fst snd]. rewrite E. cbn [fst set_conn conn].
      apply isClosed_false. rewrite V1. apply isClosed_false, Hc.
    + cbn [step subscribe_event fst snd]. rewrite E. cbn [fst set_conn conn].
      unfold isDraining in *. congruence.
    + exact Hss.
    + rewrite IH1, IH2. unfold outbound_of.
      cbn [step subscribe_event fst snd]. rewrite E.
      cbn [fst set_conn conn]. rewrite Esub, Eo, <- app_assoc.
      split; reflexivity.
Qed.

End TrafficProperties.

Section StoppedProperties.
Context `{JsRuntime} `{Nuid}.

(** ** The request objects are never dropped *)

Lemma Request_cancel_heap w h :
  nuid (Request_cancel w h) = nuid w
  /\ length (calls (Request_cancel w h)) = length (calls w).
Proof.
  unfold Request_cancel. case_match; [|tauto].
  cbn. rewrite length_alter. tauto.
Qed.

Lemma react_heap w h :
  nuid (react w h) = nuid w /\ length (calls (react w h)) = length (calls w).
Proof.
  unfold react. repeat case_match; try tauto.
  all: try (cbn; rewrite length_alter; tauto).
  match goal with
  | |- context [Request_cancel ?x h] =>
      destruct (Request_cancel_heap x h) as [-> ->]
  end.
  cbn. rewrite length_alter. tauto.
Qed.

Lemma dispatch_heap w tok res :
  nuid (MuxSubscription_dispatch w tok res) = nuid w
  /\ length (calls (MuxSubscription_dispatch w tok res)) = length (calls w).
Proof.
  unfold MuxSubscription_dispatch. case_match; [|tauto].
  match goal with
  | |- context [react ?x ?h] => destruct (react_heap x h) as [-> ->]
  end.
  unfold Request_resolver. case_match; [|tauto].
  cbn. rewrite length_alter. tauto.
Qed.

Lemma fire_timer_heap w h :
  nuid (fire_timer w h) = nuid w
  /\ length (calls (fire_timer w h)) = length (calls w).
Proof.
  unfold fire_timer. repeat case_match; try tauto.
  match goal with
  | |- context [react ?x ?h] => destruct (react_heap x h) as [-> ->]
  end.
  cbn. rewrite length_alter. tauto.
Qed.

Lemma tick_heap w :
  nuid (tick w) = nuid w /\ length (calls (tick w)) = length (calls w).
Proof.
  unfold tick.
  apply (foldl_preserved
           (fun x => nuid x = nuid w /\ length (calls x) = length (calls w)));
    [cbn; tauto|].
  intros x b [Hn Hl]. destruct (fire_timer_heap x b) as [-> ->]. tauto.
Qed.

(** Requests are only ever added, one token each. *)
Lemma step_heap w ev :
  nuid w <= nuid (step w ev)
  /\ nuid (step w ev) - nuid w = length (calls (step w ev)) - length (calls w)
  /\ length (calls w) <= length (calls (step w ev)).
Proof.
  destruct ev; cbn [step]; try (cbn; lia).
  - destruct (request_cases w subject timeoutMillis data)
      as [-> | (s & -> & Hs & Hc & Hd)]; [lia|].
    destruct (request_accepted w s timeoutMillis data Hc Hd Hs)
      as (Hn & _ & _ & [(-> & _) | (-> & _)]);
      rewrite Hn, length_app; cbn; lia.
  - destruct (dispatch_heap w tok (inl m)) as [-> ->]. lia.
  - destruct (dispatch_heap w tok (inr (errorForCode NO_RESPONDERS)))
      as [-> ->]. lia.
  - destruct (tick_heap w) as [-> ->]. lia.
Qed.

(** ** A connection that has stopped *)

Lemma stopped_state w :
  reachable w -> isClosed (conn w) = true \/ isDraining (conn w) = true ->
  state (protocol (conn w)) <> CONNECTED.
Proof.
  intros R [Hc | Hd].
  - apply isClosed_state in Hc. congruence.
  - apply reachable_ConnInv in R. unfold view, ConnInv in R.
    destruct R as (I1 & _). apply I1, Hd.
Qed.

Lemma stopped_step w ev :
  reachable w -> isClosed (conn w) = true \/ isDraining (conn w) = true ->
  carried (step w ev) = carried w
  /\ length (calls (step w ev)) = length (calls w)
  /\ nuid (step w ev) = nuid w
  /\ (isClosed (conn (step w ev)) = true
      \/ isDraining (conn (step w ev)) = true).
Proof.
  intros R S.
  assert (S' : isClosed (conn (step w ev)) = true
               \/ isDraining (conn (step w ev)) = true).
  { destruct S as [Hc | Hd].
    - left. apply isClosed_state. apply (closed_step w ev). left.
      apply isClosed_state, Hc.
    - right. apply draining_step, Hd. }
  split; [|split; [|split; [|exact S']]]; clear S'.
  - destruct ev; cbn [step].
    + destruct (publish_refused_when_not_connected (conn w) subject data reply
                  (stopped_state w R S)) as (e & ->).
      cbn [fst]. rewrite set_conn_same. reflexivity.
    + destruct (subscribe_cases (conn w) subject opts)
        as [(e & ->) | (s & nc' & _ & _ & Hc & Hd & _)].
      * cbn [fst]. rewrite set_conn_same. reflexivity.
      * destruct S; congruence.
    + rewrite request_rejected; [reflexivity|]. tauto.
    + unfold drain. destruct S as [-> | Hd].
      * cbn [fst]. rewrite set_conn_same. reflexivity.
      * rewrite Hd. destruct (isClosed (conn w)); cbn [fst];
          rewrite set_conn_same; reflexivity.
    + unfold close, ProtocolHandler_close, ProtocolHandler_shutdown.
      repeat case_match; reflexivity.
    + apply dispatch_carried.
    + apply dispatch_carried.
    + apply tick_carried.
    + unfold ProtocolHandler_drained, ProtocolHandler_shutdown.
      repeat case_match; reflexivity.
    + unfold ProtocolHandler_shutdown. repeat case_match; reflexivity.
  - destruct ev; cbn [step]; try reflexivity.
    + rewrite request_rejected; [reflexivity|]. tauto.
    + apply dispatch_heap.
    + apply dispatch_heap.
    + apply tick_heap.
  - destruct ev; cbn [step]; try reflexivity.
    + rewrite request_rejected; [reflexivity|]. tauto.
    + apply dispatch_heap.
    + apply dispatch_heap.
    + apply tick_heap.
Qed.


End StoppedProperties.

Section RequestProperties.
Context `{JsRuntime} `{Nuid}.

(** The generator never hands the same token out twice. *)
Hypothesis nuid_fresh : forall i j, nuid_next i = nuid_next j -> i = j.

(** ** The reference behaviour, event by event *)

Lemma clock_ticks pre : forall t, foldl clock t pre = t + ticks pre.
Proof.
  induction pre as [|ev pre IH]; intros t; cbn [foldl ticks]; [lia|].
  rewrite IH. destruct ev; cbn [clock ticks]; lia.
Qed.

(** While nothing settles the request, the events only move the
    clock. *)
Lemma outcome_pending_app tok dl pre evs : forall t,
  outcome tok dl t pre = Pending ->
  outcome tok dl t (pre ++ evs)%list = outcome tok dl (t + ticks pre) evs.
Proof.
  induction pre as [|ev pre IH]; intros t Hp.
  - cbn. rewrite Nat.add_0_r. reflexivity.
  - cbn [outcome app] in *.
    destruct (settles tok dl t ev) eqn:Es; try discriminate.
    rewrite IH by exact Hp.
    f_equal. destruct ev; cbn [clock ticks]; lia.
Qed.

(** A deadline already reached is met by the first tick. *)
Lemma outcome_overdue tok dl evs : forall t,
  dl <= S t -> no_reply tok evs ->
  outcome tok dl t evs
  = if (ticks evs <? 1)%nat then Pending else Rejected (errorForCode TIMEOUT).
Proof.
  induction evs as [|ev evs IH]; intros t Hdl Hn; [reflexivity|].
  apply Forall_cons in Hn. destruct Hn as [Hr Hn]. cbn [outcome].
  destruct (settles_no_reply tok dl t ev Hr) as [E | (-> & _ & E)]; rewrite E.
  - destruct ev; cbn [clock ticks]; try (apply IH; assumption).
    cbn [settles] in E. apply Nat.leb_le in Hdl. rewrite Hdl in E. discriminate.
  - reflexivity.
Qed.

Lemma outcome_quiet tok evs t d :
  no_reply tok evs ->
  outcome tok (t + d) t evs
  = if (ticks evs <? Nat.max 1 d)%nat then Pending
    else Rejected (errorForCode TIMEOUT).
Proof.
  intros Hn. destruct d as [|d].
  - apply outcome_overdue; [lia|exact Hn].
  - rewrite outcome_no_reply by (auto; lia).
    replace (Nat.max 1 (S d)) with (S d) by lia. reflexivity.
Qed.


(** X7: the first answer for the token of a request that reaches the
    mux before the deadline decides it for good: a message fulfils
    the promise with that message, a no-responders status rejects it
    with NO_RESPONDERS, whatever follows. *)
Theorem request_settled_by_first_answer w subject timeoutMillis data h pre post :
  reachable w ->
  snd (request w subject timeoutMillis data) = Returned (Promise_race h) ->
  no_reply (call_token (fst (request w subject timeoutMillis data)) h) pre ->
  ticks pre < Nat.max 1 (default 1000 timeoutMillis) ->
  (forall m,
      call_promise
        (run (fst (request w subject timeoutMillis data))
           (pre ++ Reply (call_token (fst (request w subject timeoutMillis data)) h) m
                :: post)%list) h
      = Fulfilled m)
  /\ call_promise
       (run (fst (request w subject timeoutMillis data))
          (pre ++ NoResponders
                    (call_token (fst (request w subject timeoutMillis data)) h)
               :: post)%list) h
     = Rejected (errorForCode NO_RESPONDERS).
Proof.
  intros R Hret Hn Ht.
  destruct (request_pending nuid_fresh w subject timeoutMillis data h R Hret)
    as (I1 & Enow & c & Hc & P & Et & Eto & Ed).
  assert (Hpre : outcome (token (req c)) (deadline (req c))
                   (now (fst (request w subject timeoutMillis data))) pre
                 = Pending).
  { rewrite Et, Ed, Enow, outcome_quiet by exact Hn.
    apply Nat.ltb_lt in Ht. rewrite Ht. reflexivity. }
  split; [intros m|].
  all: rewrite (run_outcome nuid_fresh _ _ h c I1 Hc P).
  all: rewrite outcome_pending_app by exact Hpre.
  all: cbn [outcome settles]; rewrite <- Et, decide_True by reflexivity.
  all: reflexivity.
Qed.

(** ** Tokens and reply subjects *)

Lemma run_heap evs : forall w,
  nuid w <= nuid (run w evs) /\ length (calls w) <= length (calls (run w evs)).
Proof.
  induction evs as [|ev evs IH]; intros w; [cbn; lia|].
  change (run w (ev :: evs)) with (run (step w ev) evs).
  destruct (step_heap w ev) as (N & _ & L).
  destruct (IH (step w ev)) as (N' & L'). lia.
Qed.

(** X8: no two requests of a connection share a reply subject: the
    frame a request hands over carries a reply subject different from
    that of every request made before it. *)
Theorem reply_subjects_are_unique w s1 t1 d1 h1 evs s2 t2 d2 h2 :
  reachable w ->
  snd (request w s1 t1 d1) = Returned (Promise_race h1) ->
  snd (request (run (fst (request w s1 t1 d1)) evs) s2 t2 d2)
  = Returned (Promise_race h2) ->
  exists f1 f2,
    last (outbound_of (fst (request w s1 t1 d1))) = Some f1
    /\ last (outbound_of
               (fst (request (run (fst (request w s1 t1 d1)) evs) s2 t2 d2)))
       = Some f2
    /\ pub_reply f1 <> pub_reply f2
    /\ h1 <> h2.
Proof.
  intros R H1 H2.
  destruct (request_returned_race _ _ _ _ _ H1)
    as (s & -> & Hs & Hc & Hd & ->).
  destruct (request_returned_race _ _ _ _ _ H2)
    as (s' & -> & Hs' & Hc' & Hd' & ->).
  destruct (request_accepted w s t1 d1 Hc Hd Hs)
    as (En & _ & _ & [(Ec & _ & _ & Eo) | (_ & e & He)]);
    [|rewrite H1 in He; discriminate].
  destruct (request_accepted _ s' t2 d2 Hc' Hd' Hs')
    as (_ & _ & _ & [(_ & _ & _ & Eo') | (_ & e & He)]);
    [|rewrite H2 in He; discriminate].
  set (w1 := fst (request w (Some s) t1 d1)) in *.
  set (w2 := run w1 evs) in *.
  destruct (run_heap evs w1) as (Hn & Hl). fold w2 in Hn, Hl.
  destruct (run_fixed w (Call_request (Some s) t1 d1 :: evs)) as (_ & Eb).
  change (run w (Call_request (Some s) t1 d1 :: evs)) with w2 in Eb.
  eexists _, _. unfold outbound_of. rewrite Eo, Eo', !last_snoc.
  split; [reflexivity|]. split; [reflexivity|]. cbn [pub_reply]. split.
  - rewrite Eb. intros E. apply (inj (String.append _)) in E.
    apply nuid_fresh in E. lia.
  - rewrite Ec, length_app in Hl. cbn in Hl. lia.
Qed.

(** ** The mux and the promises *)

Lemma race_call_raced c : raced c <> None -> raced (race_call c) <> None.
Proof. unfold race_call. repeat case_match; cbn; congruence. Qed.

(** On a connection made by [connect], the publish of a request goes
    through, so every request object has its promise. *)
Lemma reachable_raced w :
  reachable w -> forall h c, calls w !! h = Some c -> raced c <> None.
Proof.
  induction 1 as [opts inbox t0 | w ev R IH]; intros h c' Hc'.
  - cbn in Hc'. rewrite lookup_nil in Hc'. discriminate.
  - pose proof (reachable_CallsInv nuid_fresh w R) as I.
    assert (Hsame : calls (step w ev) = calls w -> raced c' <> None).
    { intros E. rewrite E in Hc'. exact (IH h c' Hc'). }
    assert (Hold : forall f,
               (forall c, raced c <> None -> raced (f c) <> None) ->
               (forall c, calls w !! h = Some c ->
                          calls (step w ev) !! h = Some (f c)) ->
               length (calls (step w ev)) = length (calls w) ->
               raced c' <> None).
    { intros f Hf Hl Hlen.
      destruct (calls w !! h) as [c|] eqn:Hc.
      - rewrite (Hl c eq_refl) in Hc'. injection Hc' as <-.
        apply Hf, (IH h c Hc).
      - apply lookup_ge_None in Hc. apply lookup_lt_Some in Hc'. lia. }
    destruct ev; cbn [step] in *; try (apply Hsame; reflexivity).
    + destruct (request_cases w subject timeoutMillis data)
        as [E | (s & -> & Hs & Hc & Hd)].
      { rewrite E in Hc'. exact (IH h c' Hc'). }
      pose proof (reachable_open_is_connected w R Hc Hd) as Hst.
      pose proof (request_connected w s timeoutMillis data Hst Hd Hs) as Hret.
      destruct (request_accepted w s timeoutMillis data Hc Hd Hs)
        as (_ & _ & _ & [(Ec & _) | (_ & e & He)]);
        [|rewrite Hret in He; discriminate].
      rewrite Ec in Hc'. apply lookup_app_Some in Hc' as [Hc' | [_ Hc']].
      * exact (IH h c' Hc').
      * apply list_lookup_singleton_Some in Hc' as [_ <-]. discriminate.
    + apply (Hold (fun c => if decide (mux_reqs w !! tok = Some h)
                            then race_call (resolve_call (inl m) c) else c)).
      * intros c Hr. case_decide; [apply race_call_raced|]; exact Hr.
      * intros c Hc. apply dispatch_lookup; assumption.
      * apply dispatch_heap.
    + apply (Hold (fun c => if decide (mux_reqs w !! tok = Some h)
                            then race_call
                                   (resolve_call
                                      (inr (errorForCode NO_RESPONDERS)) c)
                            else c)).
      * intros c Hr. case_decide; [apply race_call_raced|]; exact Hr.
      * intros c Hc. apply dispatch_lookup; assumption.
      * apply dispatch_heap.
    + apply (Hold (fun c => if due (S (now w)) c
                            then race_call (timeout_call c) else c)).
      * intros c Hr. case_match; [apply race_call_raced|]; exact Hr.
      * intros c Hc. apply tick_lookup; assumption.
      * apply tick_heap.
Qed.


(** X10: an answer that reaches the mux touches at most the request
    registered under its token: a request with another token, and a
    request that is settled already, are left exactly as they are. *)
Theorem answer_touches_only_its_request w tok h c :
  reachable w ->
  calls w !! h = Some c ->
  token (req c) <> tok \/ call_promise w h <> Pending ->
  (forall m, calls (step w (Reply tok m)) !! h = Some c)
  /\ calls (step w (NoResponders tok)) !! h = Some c.
Proof.
  intros R Hc Hor.
  pose proof (reachable_CallsInv nuid_fresh w R) as I.
  assert (Hm : mux_reqs w !! tok <> Some h).
  { intros Hm. destruct (ci_mux w I tok h Hm) as (c' & Hc' & Et).
    rewrite Hc in Hc'. injection Hc' as <-.
    destruct Hor as [Hne | Hp]; [congruence|].
    apply Hp. unfold call_promise. rewrite Hc.
    destruct (ci_call w I h c Hc) as [P | [(_ & _ & Hn) | O]].
    - destruct P as (-> & _). reflexivity.
    - congruence.
    - rewrite O. reflexivity. }
  split; [intros m|]; cbn [step].
  all: rewrite (dispatch_lookup w tok _ h c I Hc).
  all: rewrite decide_False by exact Hm; reflexivity.
Qed.

End RequestProperties.

Section StatusProperties.
Context {Status : Type}.
Implicit Types (ls : list (QueuedIterator Status)) (l : QueuedIterator Status).
Implicit Types (evs pre post : list (BusEvent Status)).

Lemma bus_run_app ls evs more :
  bus_run ls (evs ++ more) = bus_run (bus_run ls evs) more.
Proof. unfold bus_run. apply foldl_app. Qed.

Lemma bus_run_length evs : forall ls,
  length (bus_run ls evs) = length ls + registrations evs.
Proof.
  induction evs as [|ev evs IH]; intros ls; [cbn; lia|].
  change (bus_run ls (ev :: evs)) with (bus_run (bus_step ls ev) evs).
  rewrite IH. destruct ev; cbn [bus_step status fst registrations].
  - rewrite length_app. cbn. lia.
  - unfold broadcast. rewrite length_map. reflexivity.
Qed.

Lemma broadcast_lookup ls s i :
  broadcast ls s !! i = (fun l => push l s) <$> ls !! i.
Proof.
  unfold broadcast. revert i.
  induction ls as [|l ls IH]; intros [|i]; cbn; try reflexivity. apply IH.
Qed.

(** A listener is pushed every status that comes out, in order. *)
Lemma bus_run_lookup evs : forall ls i l,
  ls !! i = Some l -> bus_run ls evs !! i = Some (l ++ emitted evs)%list.
Proof.
  induction evs as [|ev evs IH]; intros ls i l Hl.
  - cbn. rewrite app_nil_r. exact Hl.
  - change (bus_run ls (ev :: evs)) with (bus_run (bus_step ls ev) evs).
    destruct ev as [|s]; cbn [bus_step status fst emitted].
    + apply IH. apply lookup_app_l_Some, Hl.
    + rewrite (IH _ i (push l s)).
      * unfold push. rewrite <- app_assoc. reflexivity.
      * rewrite broadcast_lookup, Hl. reflexivity.
Qed.


End StatusProperties.

Section HeaderProperties.
Import NatsHeaders.

(** ** Canonical keys stay valid *)

Lemma case_key_char c :
  key_char c = true ->
  key_char (to_upper c) = true /\ key_char (to_lower c) = true.
Proof.
  destruct c as [[] [] [] [] [] [] [] []]; vm_compute; auto.
Qed.

Lemma title_case_valid k : forall b,
  validKey k = true -> validKey (title_case b k) = true.
Proof.
  unfold validKey.
  induction k as [|c k IH]; intros b Hk; [reflexivity|].
  cbn [title_case all_chars] in *.
  apply andb_true_iff in Hk as [Hc Hk].
  destruct (case_key_char c Hc) as [Hu Hl].
  apply andb_true_iff. split; [destruct b; assumption|apply IH, Hk].
Qed.

(** ** What the updates do to the entries *)

Lemma keys_add_value x h k v :
  In x (map fst (add_value h k v)) -> x = k \/ In x (map fst h).
Proof.
  induction h as [|[k' vs] h IH]; cbn [add_value].
  - cbn. intuition congruence.
  - destruct (String.eqb_spec k' k) as [->|Hne]; cbn; tauto.
Qed.

Lemma keys_set_value x h k v :
  In x (map fst (set_value h k v)) -> x = k \/ In x (map fst h).
Proof.
  induction h as [|[k' vs] h IH]; cbn [set_value].
  - cbn. intuition congruence.
  - destruct (String.eqb_spec k' k) as [->|Hne]; cbn; tauto.
Qed.

Lemma keys_remove_key x h k :
  In x (map fst (remove_key h k)) -> In x (map fst h).
Proof.
  induction h as [|[k' vs] h IH]; cbn [remove_key]; [tauto|].
  destruct (String.eqb_spec k' k) as [->|Hne]; cbn; tauto.
Qed.

Lemma pairs_cons k vs (h : t) :
  pairs ((k, vs) :: h) = (map (fun v => (k, v)) vs ++ pairs h)%list.
Proof. reflexivity. Qed.

Lemma pairs_add_value (P : string * string -> Prop) h k v :
  Forall P (pairs h) -> P (k, v) -> Forall P (pairs (add_value h k v)).
Proof.
  intros Hh Hkv.
  induction h as [|[k' vs] h IH]; cbn [add_value].
  - cbn. repeat constructor. exact Hkv.
  - rewrite pairs_cons in Hh. apply Forall_app in Hh as [Hvs Hh].
    destruct (String.eqb_spec k' k) as [->|Hne]; rewrite pairs_cons.
    + rewrite map_app. cbn [map].
      apply Forall_app. split; [|exact Hh].
      apply Forall_app. split; [exact Hvs|]. repeat constructor. exact Hkv.
    + apply Forall_app. split; [exact Hvs|apply IH, Hh].
Qed.

Lemma pairs_set_value (P : string * string -> Prop) h k v :
  Forall P (pairs h) -> P (k, v) -> Forall P (pairs (set_value h k v)).
Proof.
  intros Hh Hkv.
  induction h as [|[k' vs] h IH]; cbn [set_value].
  - cbn. repeat constructor. exact Hkv.
  - rewrite pairs_cons in Hh. apply Forall_app in Hh as [Hvs Hh].
    destruct (String.eqb_spec k' k) as [->|Hne]; rewrite pairs_cons.
    + cbn [map app]. constructor; assumption.
    + apply Forall_app. split; [exact Hvs|apply IH, Hh].
Qed.

Lemma pairs_remove_key (P : string * string -> Prop) h k :
  Forall P (pairs h) -> Forall P (pairs (remove_key h k)).
Proof.
  intros Hh.
  induction h as [|[k' vs] h IH]; cbn [remove_key]; [exact Hh|].
  rewrite pairs_cons in Hh. apply Forall_app in Hh as [Hvs Hh].
  destruct (String.eqb_spec k' k) as [->|Hne]; [apply IH, Hh|].
  rewrite pairs_cons. apply Forall_app. split; [exact Hvs|apply IH, Hh].
Qed.

Lemma NoDup_cons_In {A} (x : A) l : NoDup (x :: l) <-> ~ In x l /\ NoDup l.
Proof. rewrite NoDup_cons, list_elem_of_In. reflexivity. Qed.

Lemma normal_add_value h k v :
  canonicalMIMEHeaderKey k = k -> normal h -> normal (add_value h k v).
Proof.
  intros Hk [Hnd Hall]. unfold normal.
  induction h as [|[k' vs] h IH]; cbn [add_value].
  - cbn. split; [apply NoDup_singleton|].
    constructor; [cbn; split; [exact Hk|discriminate]|constructor].
  - cbn [map fst] in Hnd. apply NoDup_cons_In in Hnd as [Hin Hnd].
    apply Forall_cons in Hall as [[Hc Hv] Hall]. cbn [fst snd] in Hc, Hv.
    destruct (String.eqb_spec k' k) as [->|Hne]; cbn [map fst].
    + split; [apply NoDup_cons_In; tauto|].
      constructor; [|exact Hall]. cbn. split; [exact Hc|].
      destruct vs; discriminate.
    + destruct (IH Hnd Hall) as [IH1 IH2].
      split.
      * apply NoDup_cons_In. split; [|exact IH1].
        intros Hi. apply keys_add_value in Hi as [E | Hi]; [congruence|tauto].
      * constructor; [cbn; tauto|exact IH2].
Qed.

Lemma normal_set_value h k v :
  canonicalMIMEHeaderKey k = k -> normal h -> normal (set_value h k v).
Proof.
  intros Hk [Hnd Hall]. unfold normal.
  induction h as [|[k' vs] h IH]; cbn [set_value].
  - cbn. split; [apply NoDup_singleton|].
    constructor; [cbn; split; [exact Hk|discriminate]|constructor].
  - cbn [map fst] in Hnd. apply NoDup_cons_In in Hnd as [Hin Hnd].
    apply Forall_cons in Hall as [[Hc Hv] Hall]. cbn [fst snd] in Hc, Hv.
    destruct (String.eqb_spec k' k) as [->|Hne]; cbn [map fst].
    + split; [apply NoDup_cons_In; tauto|].
      constructor; [|exact Hall]. cbn. split; [exact Hc|discriminate].
    + destruct (IH Hnd Hall) as [IH1 IH2].
      split.
      * apply NoDup_cons_In. split; [|exact IH1].
        intros Hi. apply keys_set_value in Hi as [E | Hi]; [congruence|tauto].
      * constructor; [cbn; tauto|exact IH2].
Qed.

Lemma normal_remove_key h k : normal h -> normal (remove_key h k).
Proof.
  intros [Hnd Hall]. unfold normal.
  induction h as [|[k' vs] h IH]; cbn [remove_key]; [split; assumption|].
  cbn [map fst] in Hnd. apply NoDup_cons_In in Hnd as [Hin Hnd].
  apply Forall_cons in Hall as [Hk' Hall].
  destruct (IH Hnd Hall) as [IH1 IH2].
  destruct (String.eqb_spec k' k) as [->|Hne]; [split; assumption|].
  cbn [map fst]. split.
  - apply NoDup_cons_In. split; [|exact IH1].
    intros Hi. apply keys_remove_key in Hi. tauto.
  - constructor; assumption.
Qed.

(** What the interface builds passes the checks of the codec and is
    its own canonical form. *)
Lemma built_valid_normal h : built h -> valid h /\ normal h.
Proof.
  induction 1 as [|h k v h' B [IHv IHn] E|h k v h' B [IHv IHn] E|h k B [IHv IHn]].
  - split; [constructor|]. split; constructor.
  - unfold append in E.
    destruct (validKey k && validValue v) eqn:Hkv; [|discriminate].
    injection E as <-. apply andb_true_iff in Hkv as [Hk Hv]. split.
    + apply pairs_add_value; [exact IHv|]. cbn [fst snd].
      split; [apply title_case_valid, Hk|exact Hv].
    + apply normal_add_value; [apply canonical_idem|exact IHn].
  - unfold set in E.
    destruct (validKey k && validValue v) eqn:Hkv; [|discriminate].
    injection E as <-. apply andb_true_iff in Hkv as [Hk Hv]. split.
    + apply pairs_set_value; [exact IHv|]. cbn [fst snd].
      split; [apply title_case_valid, Hk|exact Hv].
    + apply normal_set_value; [apply canonical_idem|exact IHn].
  - split; [apply pairs_remove_key, IHv|apply normal_remove_key, IHn].
Qed.

(** X12: a header map built through the interface, by [append],
    [set] and [delete] from the empty map, is read back from its
    encoding exactly as it is: same keys, same values, same order. *)
Theorem built_headers_round_trip h :
  built h -> decode (encode h) = Returned h.
Proof.
  intros B. destruct (built_valid_normal h B) as [Hv Hn].
  rewrite decode_encode by exact Hv.
  rewrite canonicalize_normal by exact Hn. reflexivity.
Qed.

(** ** Lookups after an update *)

Lemma find_add_value h k v k' :
  find_values (add_value h k v) k'
  = if String.eqb k k' then (find_values h k' ++ [v])%list
    else find_values h k'.
Proof.
  induction h as [|[k0 vs] h IH]; cbn [add_value find_values].
  - destruct (String.eqb_spec k k'); reflexivity.
  - destruct (String.eqb_spec k0 k) as [->|Hne]; cbn [find_values].
    + destruct (String.eqb_spec k k'); reflexivity.
    + rewrite IH.
      destruct (String.eqb_spec k0 k'), (String.eqb_spec k k');
        congruence.
Qed.

Lemma find_set_value_any h k v k' :
  find_values (set_value h k v) k'
  = if String.eqb k k' then [v] else find_values h k'.
Proof.
  induction h as [|[k0 vs] h IH]; cbn [set_value find_values].
  - destruct (String.eqb_spec k k'); reflexivity.
  - destruct (String.eqb_spec k0 k) as [->|Hne]; cbn [find_values].
    + destruct (String.eqb_spec k k'); reflexivity.
    + rewrite IH.
      destruct (String.eqb_spec k0 k'), (String.eqb_spec k k');
        congruence.
Qed.

Lemma find_remove_key h k k' :
  find_values (remove_key h k) k'
  = if String.eqb k k' then [] else find_values h k'.
Proof.
  induction h as [|[k0 vs] h IH]; cbn [remove_key find_values].
  - destruct (String.eqb_spec k k'); reflexivity.
  - destruct (String.eqb_spec k0 k) as [->|Hne]; cbn [find_values].
    + rewrite IH. destruct (String.eqb_spec k k'); reflexivity.
    + rewrite IH.
      destruct (String.eqb_spec k0 k'), (String.eqb_spec k k');
        congruence.
Qed.

(** X13: what a lookup finds after an update, keys being compared
    through their canonical form: [append] adds its value after those
    already held under the key, [set] leaves its value alone under
    the key, [delete] leaves none, and the values under every other
    key stay as they were. *)
Theorem lookup_after_update h k v k' :
  (forall h', append h k v = Returned h' ->
     values h' k'
     = if String.eqb (canonicalMIMEHeaderKey k) (canonicalMIMEHeaderKey k')
       then (values h k' ++ [v])%list else values h k')
  /\ (forall h', set h k v = Returned h' ->
        values h' k'
        = if String.eqb (canonicalMIMEHeaderKey k) (canonicalMIMEHeaderKey k')
          then [v] else values h k')
  /\ values (delete h k) k'
     = if String.eqb (canonicalMIMEHeaderKey k) (canonicalMIMEHeaderKey k')
       then [] else values h k'.
Proof.
  unfold append, set, delete, values. repeat split.
  - intros h' E. destruct (validKey k && validValue v); [|discriminate].
    injection E as <-. apply find_add_value.
  - intros h' E. destruct (validKey k && validValue v); [|discriminate].
    injection E as <-. apply find_set_value_any.
  - apply find_remove_key.
Qed.

(** ** Counting the values *)

Lemma size_cons k vs (h : t) : size ((k, vs) :: h) = length vs + size h.
Proof. unfold size. rewrite pairs_cons, length_app, length_map. reflexivity. Qed.

Lemma size_add_value h k v : size (add_value h k v) = S (size h).
Proof.
  induction h as [|[k0 vs] h IH]; cbn [add_value]; [reflexivity|].
  destruct (String.eqb_spec k0 k) as [->|Hne]; rewrite !size_cons.
  - rewrite length_app. cbn. lia.
  - rewrite IH. lia.
Qed.

Lemma size_set_value h k v :
  size (set_value h k v) + length (find_values h k) = S (size h).
Proof.
  induction h as [|[k0 vs] h IH]; cbn [set_value find_values]; [reflexivity|].
  destruct (String.eqb_spec k0 k) as [->|Hne]; rewrite !size_cons.
  - cbn. lia.
  - lia.
Qed.

Lemma remove_key_absent h k : ~ In k (map fst h) -> remove_key h k = h.
Proof.
  induction h as [|[k0 vs] h IH]; intros Hk; [reflexivity|].
  cbn [remove_key]. cbn in Hk.
  destruct (String.eqb_spec k0 k) as [->|Hne]; [tauto|].
  rewrite IH by tauto. reflexivity.
Qed.

Lemma size_remove_key h k :
  NoDup (map fst h) ->
  size (remove_key h k) + length (find_values h k) = size h.
Proof.
  induction h as [|[k0 vs] h IH]; intros Hnd; [reflexivity|].
  cbn [map fst] in Hnd. apply NoDup_cons_In in Hnd as [Hin Hnd].
  cbn [remove_key find_values].
  destruct (String.eqb_spec k0 k) as [->|Hne]; rewrite ?size_cons.
  - rewrite remove_key_absent by exact Hin. lia.
  - specialize (IH Hnd). lia.
Qed.

(** X14: [size] counts the values held: on a map built through the
    interface an [append] adds one, a [set] puts one in the place of
    those held under the key, and a [delete] takes away those held
    under the key. *)
Theorem size_counts_the_values h k v :
  built h ->
  (forall h', append h k v = Returned h' -> size h' = S (size h))
  /\ (forall h', set h k v = Returned h' ->
        size h' + length (values h k) = S (size h))
  /\ size (delete h k) + length (values h k) = size h.
Proof.
  intros B. destruct (built_valid_normal h B) as [_ [Hnd _]].
  unfold append, set, delete, values. repeat split.
  - intros h' E. destruct (validKey k && validValue v); [|discriminate].
    injection E as <-. apply size_add_value.
  - intros h' E. destruct (validKey k && validValue v); [|discriminate].
    injection E as <-. apply size_set_value.
  - apply size_remove_key, Hnd.
Qed.

End HeaderProperties.

(** * Closed examples *)

Section Examples.
#[local] Existing Instance ecma_runtime.
#[local] Existing Instance counter_nuid.

Lemma counter_nuid_fresh : forall i j : nat, nuid_next i = nuid_next j -> i = j.
Proof. intros i j E. exact (pretty_nat_inj i j E). Qed.

(** A closed connection: [close()] on a fresh one. *)
Lemma closed_sample : isClosed (close (conn sample_world)) = true.
Proof. reflexivity. Qed.

(** C1, counterexample to the claim as stated: on a closed connection
    [subscribe] and [request] with an empty subject fail with
    CONNECTION_CLOSED, not with BAD_SUBJECT. *)
Lemma empty_subject_on_closed_connection :
  subscribe (close (conn sample_world)) (Some "") no_options
  = (close (conn sample_world), Thrown (errorForCode CONNECTION_CLOSED))
  /\ request (step sample_world Call_close) (Some "") None JUndefined
     = (step sample_world Call_close,
        Returned (Promise_reject (errorForCode CONNECTION_CLOSED)))
  /\ code (errorForCode CONNECTION_CLOSED) <> BAD_SUBJECT.
Proof. split; [reflexivity|]. split; [reflexivity|]. discriminate. Qed.

Lemma empty_subject_is_refused_witness :
  publish (conn sample_world) None JUndefined None
  = (conn sample_world, Thrown (errorForCode BAD_SUBJECT))
  /\ subscribe (conn sample_world) None no_options
     = (conn sample_world, Thrown (errorForCode BAD_SUBJECT))
  /\ request sample_world None None JUndefined
     = (sample_world, Returned (Promise_reject (errorForCode BAD_SUBJECT))).
Proof.
  destruct (empty_subject_is_refused None (or_introl eq_refl))
    as (Hp & Hs & Hr).
  split; [apply Hp|]. split; [apply Hs|apply Hr].
Defined.


(** C6, counterexample to the claim as stated: in string mode the
    payload [false] reaches the protocol layer as no bytes at all,
    where a coercion to string gives the five bytes of "false". *)
Lemma publish_false_in_string_mode :
  outbound (protocol (fst (publish (conn sample_world) (Some "greet")
                             (JBool false) None)))
  = [{| pub_subject := "greet"; pub_data := []; pub_reply := "" |}]
  /\ documented_payload_bytes sample_options (JBool false)
     = list_byte_of_string "false".
Proof. split; reflexivity. Qed.

Lemma publish_hands_bytes_only_witness :
  hands_over (conn sample_world) "greet" (JString "hello") None
    (TextEncoder_encode "hello")
  /\ hands_over (conn sample_world) "greet" (JNumber 0) None
       (TextEncoder_encode "").
Proof.
  destruct (publish_hands_bytes_only (conn sample_world) "greet"
              (JString "hello") None ltac:(discriminate))
    as (_ & _ & _ & H4).
  destruct (publish_hands_bytes_only (conn sample_world) "greet"
              (JNumber 0) None ltac:(discriminate))
    as (_ & _ & H3 & _).
  split.
  - apply H4; [reflexivity|discriminate|reflexivity].
  - apply H3; [reflexivity|discriminate|reflexivity].
Defined.

(** C9, counterexample to the claim as stated: once the drain has
    completed, or [close()] was called, the connection is closed, and
    a later [drain()] is rejected with CONNECTION_CLOSED, not with
    CONNECTION_DRAINING. *)
Lemma drain_after_drain_completed :
  isDraining (conn (run sample_world [Call_drain; Drained])) = true
  /\ drain (conn (run sample_world [Call_drain; Drained]))
     = (conn (run sample_world [Call_drain; Drained]),
        Rejected (errorForCode CONNECTION_CLOSED))
  /\ drain (conn (run sample_world [Call_drain; Call_close]))
     = (conn (run sample_world [Call_drain; Call_close]),
        Rejected (errorForCode CONNECTION_CLOSED))
  /\ code (errorForCode CONNECTION_CLOSED) <> CONNECTION_DRAINING.
Proof. repeat (split; [reflexivity|]). discriminate. Qed.

(** Scenario 2 of the specification: ["hello"] published on [greet]
    reaches the protocol layer as its five bytes, with no reply
    subject. *)
Example publish_hello :
  publish (conn sample_world) (Some "greet") (JString "hello") None
  = (set_protocol (conn sample_world)
       (fst (ProtocolHandler_publish (protocol (conn sample_world)) "greet"
               ["h"; "e"; "l"; "l"; "o"]%byte "")),
     Returned tt).
Proof. reflexivity. Qed.

Lemma drain_is_irreversible_witness :
  isDraining (conn (run (step sample_world Call_drain)
                      [Call_publish (Some "greet") JUndefined None; Tick]))
  = true
  /\ drain (conn (run (step sample_world Call_drain) [Tick]))
     = (conn (run (step sample_world Call_drain) [Tick]),
        Rejected (errorForCode CONNECTION_DRAINING)).
Proof.
  destruct (drain_is_irreversible sample_world eq_refl eq_refl) as (_ & H).
  split.
  - apply (H [Call_publish (Some "greet") JUndefined None; Tick]).
  - apply (H [Tick]). reflexivity.
Defined.


(** A request with a timeout of two milliseconds and no reply. *)
Lemma request_times_out_iff_no_reply_witness :
  call_promise
    (run (fst (request sample_world (Some "time") (Some 2) JUndefined))
       [Tick; Reply "7" {| msg_subject := "_INBOX.4xJ2.7"; msg_reply := "";
                           msg_data := [] |}; Tick]) 0
  = Rejected (errorForCode TIMEOUT).
Proof.
  apply (request_times_out_iff_no_reply counter_nuid_fresh sample_world
           (Some "time") (Some 2) JUndefined 0
           [Tick; Reply "7" {| msg_subject := "_INBOX.4xJ2.7"; msg_reply := "";
                               msg_data := [] |}; Tick]
           (reachable_connected sample_options "_INBOX.4xJ2." 0) eq_refl).
  exists [Tick; Reply "7" {| msg_subject := "_INBOX.4xJ2.7"; msg_reply := "";
                             msg_data := [] |}], [].
  split; [reflexivity|]. split.
  - repeat constructor.
  - cbn. lia.
Defined.

Lemma request_default_timeout_witness :
  call_promise
    (run (fst (request sample_world (Some "time") None JUndefined))
       (replicate 999 Tick)) 0 = Pending
  /\ call_promise
       (run (fst (request sample_world (Some "time") None JUndefined))
          (replicate 1000 Tick)) 0 = Rejected (errorForCode TIMEOUT).
Proof.
  split.
  - apply (request_default_timeout counter_nuid_fresh sample_world
             (Some "time") JUndefined 0 (replicate 999 Tick)
             (reachable_connected sample_options "_INBOX.4xJ2." 0) eq_refl).
    apply Forall_replicate. reflexivity.
  - apply (request_default_timeout counter_nuid_fresh sample_world
             (Some "time") JUndefined 0 (replicate 1000 Tick)
             (reachable_connected sample_options "_INBOX.4xJ2." 0) eq_refl).
    apply Forall_replicate. reflexivity.
Defined.

Lemma closed_resolves_once_witness :
  promise_state
    (closed (conn (run sample_world
                     [Call_close; Fatal (errorForCode STALE_CONNECTION);
                      Call_close])))
  = Fulfilled None
  /\ promise_state
       (closed (conn (run sample_world
                        [Tick; Fatal (errorForCode AUTHORIZATION_VIOLATION);
                         Call_close])))
     = Fulfilled (Some (errorForCode AUTHORIZATION_VIOLATION)).
Proof.
  split.
  - destruct (closed_resolves_once (step sample_world Call_close)
                [Fatal (errorForCode STALE_CONNECTION); Call_close]
                (reachable_step _ _
                   (reachable_connected sample_options "_INBOX.4xJ2." 0)))
      as (_ & H2 & _).
    apply (H2 None). reflexivity.
  - destruct (closed_resolves_once sample_world
                [Tick; Fatal (errorForCode AUTHORIZATION_VIOLATION); Call_close]
                (reachable_connected sample_options "_INBOX.4xJ2." 0))
      as (_ & _ & _ & _ & H5 & _).
    apply (H5 eq_refl).
    exists [Tick], [Call_close]. split; reflexivity.
Defined.

(** The test "msgheaders - basics". *)
Example msgheaders_basics :
  (exists h1 h2,
      NatsHeaders.append [] "foo" "bar" = Returned h1
      /\ NatsHeaders.append h1 "foo" "bam" = Returned h2
      /\ NatsHeaders.append h2 "foo-bar" "baz" = Returned sample_headers)
  /\ NatsHeaders.canonicalMIMEHeaderKey "foo" = "Foo"
  /\ NatsHeaders.canonicalMIMEHeaderKey "foo-bar" = "Foo-Bar"
  /\ NatsHeaders.has sample_headers "Foo" = true
  /\ NatsHeaders.has sample_headers "foo" = true
  /\ NatsHeaders.values sample_headers "Foo" = ["bar"; "bam"]
  /\ NatsHeaders.values sample_headers "Foo-Bar" = ["baz"]
  /\ NatsHeaders.decode (NatsHeaders.encode sample_headers)
     = Returned sample_headers.
Proof.
  split; [do 2 eexists; repeat split|]; repeat split; reflexivity.
Qed.

(** The test "msgheaders - illegal key". *)
Example msgheaders_illegal_key :
  Forall (fun k => NatsHeaders.set [] k "aaa" = Thrown (errorForCode BAD_HEADER))
    ["bad:"; "bad "; String (ascii_of_nat 127) ""]
  /\ Forall (fun v => NatsHeaders.set [] "a" v = Thrown (errorForCode BAD_HEADER))
       [String NatsHeaders.CR ""; String NatsHeaders.LF ""].
Proof. split; repeat constructor. Qed.

Lemma sample_headers_valid : NatsHeaders.valid sample_headers.
Proof. unfold NatsHeaders.valid. cbn. repeat constructor. Qed.

Lemma sample_headers_normal : NatsHeaders.normal sample_headers.
Proof.
  split.
  - cbn. constructor.
    + intros Hin. apply list_elem_of_singleton in Hin. discriminate Hin.
    + constructor; [apply not_elem_of_nil|constructor].
  - repeat constructor; discriminate.
Qed.


Lemma set_validates_witness :
  NatsHeaders.set sample_headers "X:bad" "v" = Thrown (errorForCode BAD_HEADER)
  /\ exists h', NatsHeaders.set sample_headers "bar-foo" "foo" = Returned h'
                /\ NatsHeaders.values h' "bar-foo" = ["foo"].
Proof.
  destruct (set_validates sample_headers "X:bad" "v") as (H1 & _).
  destruct (set_validates sample_headers "bar-foo" "foo") as (_ & H2).
  split.
  - apply H1. left. exists ":"%char. split; [cbn; tauto|left; reflexivity].
  - apply H2.
    + intros c Hc. cbn in Hc.
      repeat (destruct Hc as [<-|Hc]; [repeat split; discriminate|]).
      destruct Hc.
    + intros c Hc. cbn in Hc.
      repeat (destruct Hc as [<-|Hc]; [repeat split; discriminate|]).
      destruct Hc.
Defined.
End Examples.

(** ** Examples for the further properties *)

Section MoreExamples.
#[local] Existing Instance ecma_runtime.
#[local] Existing Instance counter_nuid.

(** ** Traffic *)

Lemma publishes_keep_order_witness :
  outbound_of
    (run sample_world
       (map publish_event
          [("greet", JString "hello", None); ("bye", JNumber 0, Some "back")]))
  = [{| pub_subject := "greet"; pub_data := ["h"; "e"; "l"; "l"; "o"]%byte;
        pub_reply := "" |};
     {| pub_subject := "bye"; pub_data := []; pub_reply := "back" |}]
  /\ state (protocol (conn
       (run sample_world
          (map publish_event
             [("greet", JString "hello", None);
              ("bye", JNumber 0, Some "back")]))))
     = CONNECTED.
Proof.
  apply (publishes_keep_order
           [("greet", JString "hello", None); ("bye", JNumber 0, Some "back")]
           sample_world eq_refl).
  repeat (constructor; [discriminate|]). constructor.
Defined.

Lemma subscribes_keep_order_witness :
  subscriptions
    (protocol (conn
       (run sample_world
          (map subscribe_event [("greet", no_options); ("bye", no_options)]))))
  = [{| sub_subject := "greet"; sub_opts := no_options |};
     {| sub_subject := "bye"; sub_opts := no_options |}]
  /\ outbound_of
       (run sample_world
          (map subscribe_event [("greet", no_options); ("bye", no_options)]))
     = [].
Proof.
  apply (subscribes_keep_order [("greet", no_options); ("bye", no_options)]
           sample_world eq_refl eq_refl).
  repeat (constructor; [discriminate|]). constructor.
Defined.


(** ** Requests *)


Lemma request_settled_by_first_answer_witness :
  call_promise
    (run (fst (request sample_world (Some "time") (Some 2) JUndefined))
       [Tick;
        Reply "0" {| msg_subject := "_INBOX.4xJ2.0"; msg_reply := "";
                     msg_data := ["n"; "o"; "o"; "n"]%byte |};
        Tick; Tick; NoResponders "0"]) 0
  = Fulfilled {| msg_subject := "_INBOX.4xJ2.0"; msg_reply := "";
                 msg_data := ["n"; "o"; "o"; "n"]%byte |}
  /\ call_promise
       (run (fst (request sample_world (Some "time") (Some 2) JUndefined))
          [Tick; NoResponders "0"; Tick]) 0
     = Rejected (errorForCode NO_RESPONDERS).
Proof.
  assert (Etok : call_token
                   (fst (request sample_world (Some "time") (Some 2) JUndefined))
                   0 = "0") by (vm_compute; reflexivity).
  destruct (request_settled_by_first_answer counter_nuid_fresh sample_world
              (Some "time") (Some 2) JUndefined 0 [Tick]
              [Tick; Tick; NoResponders "0"]
              (reachable_connected sample_options "_INBOX.4xJ2." 0) eq_refl)
    as [Hf _].
  { rewrite Etok. repeat constructor. }
  { cbn. lia. }
  destruct (request_settled_by_first_answer counter_nuid_fresh sample_world
              (Some "time") (Some 2) JUndefined 0 [Tick] [Tick]
              (reachable_connected sample_options "_INBOX.4xJ2." 0) eq_refl)
    as [_ Hn].
  { rewrite Etok. repeat constructor. }
  { cbn. lia. }
  rewrite Etok in Hf, Hn.
  split; [exact (Hf _)|exact Hn].
Defined.

Lemma reply_subjects_are_unique_witness :
  exists f1 f2,
    last (outbound_of (fst (request sample_world (Some "time") None JUndefined)))
    = Some f1
    /\ last (outbound_of
               (fst (request
                       (run (fst (request sample_world (Some "time") None
                                    JUndefined)) [Tick])
                       (Some "time") None JUndefined)))
       = Some f2
    /\ pub_reply f1 <> pub_reply f2
    /\ 0 <> 1.
Proof.
  apply (reply_subjects_are_unique counter_nuid_fresh sample_world
           (Some "time") None JUndefined 0 [Tick]
           (Some "time") None JUndefined 1
           (reachable_connected sample_options "_INBOX.4xJ2." 0)
           eq_refl eq_refl).
Defined.


Lemma answer_touches_only_its_request_witness :
  calls
    (step (step sample_world (Call_request (Some "time") None JUndefined))
       (NoResponders "7")) !! 0
  = Some {| req := {| token := "0"; timeout := 1000; deadline := 1000;
                      armed := true; timer := Pending; deferred := Pending |};
            raced := Some Pending |}.
Proof.
  apply (answer_touches_only_its_request counter_nuid_fresh
           (step sample_world (Call_request (Some "time") None JUndefined))
           "7" 0 _
           (reachable_step sample_world
              (Call_request (Some "time") None JUndefined)
              (reachable_connected sample_options "_INBOX.4xJ2." 0))
           eq_refl).
  left. discriminate.
Defined.

(** ** Status listeners *)


(** ** Headers *)

(** The map of the test, built as the test builds it. *)
Lemma sample_headers_built : NatsHeaders.built sample_headers.
Proof.
  apply (NatsHeaders.built_delete
           [("Foo", ["bar"; "bam"]); ("Foo-Bar", ["baz"]); ("Bar-Foo", ["foo"])]
           "bar-foo").
  apply (NatsHeaders.built_set sample_headers "bar-foo" "foo");
    [|reflexivity].
  apply (NatsHeaders.built_append [("Foo", ["bar"; "bam"])] "foo-bar" "baz");
    [|reflexivity].
  apply (NatsHeaders.built_append [("Foo", ["bar"])] "foo" "bam");
    [|reflexivity].
  apply (NatsHeaders.built_append [] "foo" "bar"); [|reflexivity].
  apply NatsHeaders.built_new.
Qed.

Lemma built_headers_round_trip_witness :
  NatsHeaders.decode
    (NatsHeaders.encode
       (NatsHeaders.delete
          [("Foo", ["bar"; "bam"]); ("Foo-Bar", ["baz"]); ("Bar-Foo", ["foo"])]
          "bar-foo"))
  = Returned sample_headers.
Proof.
  apply (built_headers_round_trip sample_headers sample_headers_built).
Defined.

Lemma lookup_after_update_witness :
  NatsHeaders.values (NatsHeaders.add_value sample_headers "Foo" "baz") "FOO"
  = ["bar"; "bam"; "baz"]
  /\ NatsHeaders.values (NatsHeaders.delete sample_headers "foo") "foo-bar"
     = ["baz"].
Proof.
  destruct (lookup_after_update sample_headers "foo" "baz" "FOO")
    as (H1 & _ & _).
  destruct (lookup_after_update sample_headers "foo" "baz" "foo-bar")
    as (_ & _ & H3).
  split; [exact (H1 _ eq_refl)|exact H3].
Defined.

Lemma size_counts_the_values_witness :
  NatsHeaders.size sample_headers = 3
  /\ NatsHeaders.size
       (NatsHeaders.set_value sample_headers "Bar-Foo" "foo") + 0 = 4
  /\ NatsHeaders.size (NatsHeaders.delete sample_headers "foo") + 2 = 3.
Proof.
  destruct (size_counts_the_values sample_headers "bar-foo" "foo"
              sample_headers_built) as (_ & H2 & _).
  destruct (size_counts_the_values sample_headers "foo" "foo"
              sample_headers_built) as (_ & _ & H3).
  split; [reflexivity|]. split; [exact (H2 _ eq_refl)|exact H3].
Defined.

End MoreExamples.
